(** * let-go: the bytecode virtual machine and the [lang] primitives

    A shallow embedding of the two Go sources of the interpreter:
    - package [vm]: [CodeChunk] (bytecode buffer with its readers) and
      [Frame] (operand stack, [Push]/[Pop]/[Nth]/[Mult]/[Drop] and the
      interpreter loop [Run]);
    - package [rt]: the native functions installed by [installLangNS].

    Conventions.
    - A Go [int] is a 64-bit two's complement integer: it is a [Z] and every
      arithmetic operation of the source is followed by [GoInt.wrap].
    - A Go function returning [(T, error)] returns a [Res T]; the third
      constructor [Panic] is a Go run-time panic (index out of range, failed
      type assertion, division by zero), which is not an [error] value.
    - Objects reached through pointers ([*Var], [*Func]) live in an explicit
      [Heap] that is threaded through the interpreter. *)

From Stdlib Require Import ZArith Lia.
From stdpp Require Import base option list gmap strings.

Set Warnings "-register-all".
Open Scope Z_scope.

(** ** Go integers *)

Module GoInt.

Definition min_int : Z := - 2 ^ 63.
Definition max_int : Z := 2 ^ 63 - 1.

(** Two's complement wrap-around of a mathematical integer. *)
Definition wrap (z : Z) : Z := (z + 2 ^ 63) mod 2 ^ 64 - 2 ^ 63.

Definition add (a b : Z) : Z := wrap (a + b).
Definition sub (a b : Z) : Z := wrap (a - b).
Definition mul (a b : Z) : Z := wrap (a * b).
Definition neg (a : Z) : Z := wrap (- a).

(** Go's [/] on integers truncates toward zero; a zero divisor panics. *)
Definition quo (a b : Z) : option Z :=
  if b =? 0 then None else Some (wrap (Z.quot a b)).

Definition in_range (z : Z) : Prop := min_int <= z <= max_int.

End GoInt.

(** ** Go slices

    Indexing, assignment and slicing of a Go slice whose capacity equals its
    length; [None] is the run-time panic of an index out of range. *)

Definition len {A} (s : list A) : Z := Z.of_nat (length s).

Definition index {A} (s : list A) (i : Z) : option A :=
  if i <? 0 then None else s !! Z.to_nat i.

Definition assign {A} (s : list A) (i : Z) (v : A) : option (list A) :=
  if (0 <=? i) && (i <? len s) then Some (<[Z.to_nat i := v]> s) else None.

(** [s[lo:hi]] *)
Definition slice {A} (s : list A) (lo hi : Z) : option (list A) :=
  if (0 <=? lo) && (lo <=? hi) && (hi <=? len s)
  then Some (take (Z.to_nat (hi - lo)) (drop (Z.to_nat lo) s))
  else None.

(** ** Values *)

(** Modelled from the spec: the [Value] interface and its implementations are
    declared in files of package [vm] that are not part of the sources at
    hand. The variants are those of the data model (section 3): Nil, Boolean,
    Integer, String, Symbol, Keyword, List, Vector, Function (native or
    compiled) and Var. A native function is a host callable, named here by a
    handle; [*Func] and [*Var] are pointers, named by their address. *)
Inductive Value : Type :=
| NIL
| Boolean (b : bool)
| Int (n : Z)
| Str (s : string)
| Symbol (s : string)
| Keyword (s : string)
| List (vs : list Value)
| ArrayVector (vs : list Value)
| NativeFn (handle : string)
| Func (addr : nat)
| Var (addr : nat).

Definition TRUE : Value := Boolean true.
Definition FALSE : Value := Boolean false.

(** Modelled from the spec: [IsTruthy] is not in the sources at hand.
    "Nil and Boolean(false) are falsy; everything else is truthy." *)
Definition IsTruthy (v : Value) : bool :=
  match v with
  | NIL | Boolean false => false
  | _ => true
  end.

(** Modelled from the spec: the [Fn] interface is not in the sources at hand;
    a value is a function when it is a native or a compiled function. This is
    the type assertion [fraw.(Fn)]. *)
Definition isFn (v : Value) : bool :=
  match v with
  | NativeFn _ | Func _ => true
  | _ => false
  end.

(** [cls.Type() != FuncType]: only a compiled function has type [FuncType]. *)
Definition isFunc (v : Value) : bool :=
  match v with
  | Func _ => true
  | _ => false
  end.

(** The objects behind [*Var] and [*Func] pointers: the root value of every
    Var and the capture list of every compiled function. *)
Record Heap : Type := mkHeap {
  roots : gmap nat Value;
  captures : gmap nat (list Value)
}.

Definition emptyHeap : Heap := mkHeap ∅ ∅.

(** Modelled from the spec: [Var.SetRoot] and [Var.Deref] are not in the
    sources at hand. [SetRoot] assigns the root value of the Var, [Deref]
    reads its current root value. *)
Definition SetRoot (a : nat) (v : Value) (h : Heap) : Heap :=
  mkHeap (<[a := v]> (roots h)) (captures h).

Definition Deref (a : nat) (h : Heap) : Value :=
  default NIL (roots h !! a).

(** [fun.closedOvers = append(fun.closedOvers, val)] *)
Definition closedOversOf (a : nat) (h : Heap) : list Value :=
  default [] (captures h !! a).

Definition appendClosedOver (a : nat) (v : Value) (h : Heap) : Heap :=
  mkHeap (roots h) (<[a := closedOversOf a h ++ [v]]> (captures h)).

(** ** Errors *)

(** Modelled from the spec: the error constructors are not in the sources at
    hand. An error has a kind ([ExecutionError] or [TypeError], section 7), a
    message, and the error it wraps, if any. *)
Inductive Error : Type :=
| ExecutionError (msg : string) (cause : option Error)
| TypeError (v : Value) (msg : string) (cause : option Error).

Inductive ErrorKind : Type := KindExecution | KindType.

Definition kind (e : Error) : ErrorKind :=
  match e with
  | ExecutionError _ _ => KindExecution
  | TypeError _ _ _ => KindType
  end.

Definition NewExecutionError (msg : string) : Error := ExecutionError msg None.

Definition NewTypeError (v : Value) (msg : string) (cause : option Error) : Error :=
  TypeError v msg cause.

(** [e.Wrap(cause)]: the same error, carrying [cause]. *)
Definition Wrap (e : Error) (cause : option Error) : Error :=
  match e with
  | ExecutionError m _ => ExecutionError m cause
  | TypeError v m _ => TypeError v m cause
  end.

(** Result of a Go function returning [(T, error)]. *)
Inductive Res (A : Type) : Type :=
| Ok (a : A)
| Err (e : Error)
| Panic.
Arguments Ok {A} a.
Arguments Err {A} e.
Arguments Panic {A}.

(** ** Opcodes *)

Inductive Opcode : Type :=
| OPNOP | OPLDC | OPLDA | OPINV | OPRET | OPBRT | OPBRF | OPJMP
| OPPOP | OPPON | OPDPN | OPSTV | OPLDV | OPLDK | OPPAK.

(** The [iota] numbering of the constants. *)
Definition opcode_value (op : Opcode) : Z :=
  match op with
  | OPNOP => 0 | OPLDC => 1 | OPLDA => 2 | OPINV => 3 | OPRET => 4
  | OPBRT => 5 | OPBRF => 6 | OPJMP => 7 | OPPOP => 8 | OPPON => 9
  | OPDPN => 10 | OPSTV => 11 | OPLDV => 12 | OPLDK => 13 | OPPAK => 14
  end.

(** The [uint8] read from the code, as the [switch] of [Run] sees it; [None]
    is the [default] case. *)
Definition decode (inst : Z) : option Opcode :=
  match inst with
  | 0 => Some OPNOP | 1 => Some OPLDC | 2 => Some OPLDA | 3 => Some OPINV
  | 4 => Some OPRET | 5 => Some OPBRT | 6 => Some OPBRF | 7 => Some OPJMP
  | 8 => Some OPPOP | 9 => Some OPPON | 10 => Some OPDPN | 11 => Some OPSTV
  | 12 => Some OPLDV | 13 => Some OPLDK | 14 => Some OPPAK
  | _ => None
  end.

Definition OpcodeToString (op : Z) : string :=
  let ops := ["NOP"; "LDC"; "LDA"; "INV"; "RET"; "BRT"; "BRF"; "JMP"; "POP";
              "PON"; "DPN"; "STV"; "LDV"; "LDK"; "PAK"]%string in
  if op <? len ops
  then default "???"%string (index ops op)
  else "???"%string.

(** ** CodeChunk *)

Module CodeChunk.

(** [code] holds [uint8] values, [0 <= b < 256]; [consts] is the slice
    behind the pointer [*[]Value]. *)
Record t : Type := mk {
  maxStack : Z;
  consts : list Value;
  code : list Z;
  length : Z
}.

Definition NewCodeChunk (cs : list Value) : t :=
  mk 0 cs [] 0.

Definition Length (c : t) : Z := length c.

Definition Append (c : t) (insts : list Z) : t :=
  let code' := code c ++ insts in
  mk (maxStack c) (consts c) code' (len code').

(** [binary.LittleEndian.PutUint32(n, uint32(val))] *)
Definition PutUint32 (val : Z) : list Z :=
  let u := val mod 2 ^ 32 in
  [Z.land u 255; Z.land (Z.shiftr u 8) 255;
   Z.land (Z.shiftr u 16) 255; Z.land (Z.shiftr u 24) 255].

Definition Append32 (c : t) (val : Z) : t :=
  let code' := code c ++ PutUint32 val in
  mk (maxStack c) (consts c) code' (len code').

Definition SetMaxStack (c : t) (max : Z) : t :=
  mk max (consts c) (code c) (length c).

Definition Get (c : t) (idx : Z) : Res Z :=
  if idx >=? length c
  then Err (NewExecutionError "bytecode fetch out of bounds")
  else match index (code c) idx with
       | Some b => Ok b
       | None => Panic
       end.

(** [binary.LittleEndian.Uint32(b)]: panics when [b] has fewer than four
    bytes. On a 64-bit platform [int(uint32)] keeps the value, which is
    never negative. *)
Definition Uint32 (b : list Z) : option Z :=
  match b with
  | b0 :: b1 :: b2 :: b3 :: _ =>
      Some (Z.lor (Z.lor b0 (Z.shiftl b1 8))
                  (Z.lor (Z.shiftl b2 16) (Z.shiftl b3 24)))
  | _ => None
  end.

Definition Get32 (c : t) (idx : Z) : Res Z :=
  if (idx >=? length c) || (GoInt.add idx 4 >? length c)
  then Err (NewExecutionError "bytecode wide fetch out of bounds")
  else match slice (code c) idx (len (code c)) with
       | Some b => match Uint32 b with
                   | Some n => Ok n
                   | None => Panic
                   end
       | None => Panic
       end.

Definition AppendChunk (c o : t) : t :=
  mk (if maxStack o >? maxStack c then maxStack o else maxStack c)
     (consts c)
     (code c ++ code o)
     (GoInt.add (length c) (len (code o))).

(** [binary.LittleEndian.PutUint32(c.code[address:address+4], uint32(value))].
    Within the length of the code the four bytes are overwritten in place.
    Outside it Go panics, or writes into the spare capacity that [append]
    left behind the slice; that case is [None]. *)
Definition Update32 (c : t) (address value : Z) : option t :=
  if (0 <=? address) && (address <=? GoInt.add address 4)
     && (GoInt.add address 4 <=? len (code c))
  then Some (mk (maxStack c) (consts c)
                (take (Z.to_nat address) (code c) ++ PutUint32 value
                 ++ drop (Z.to_nat address + 4) (code c))
                (length c))
  else None.

(** The opcodes that [Debug] prints with an operand:
    [case OPLDC, OPLDA, OPBRT, OPBRF, OPJMP, OPPON, OPDPN, OPINV, OPLDK]. *)
Definition wide (op : Z) : bool :=
  match decode op with
  | Some (OPLDC | OPLDA | OPBRT | OPBRF | OPJMP | OPPON | OPDPN | OPINV
          | OPLDK) => true
  | _ => false
  end.

(** The listing of the code that [Debug] prints after the line "code:", one
    entry for each line: the address, the name of the opcode and, for the
    opcodes above, the operand. The errors of [Get] and [Get32] are dropped
    as in the source, the value read is then 0; [None] is a panic, or a loop
    that is not over when the fuel is spent. The lines of the constants,
    printed before, are not part of this listing. *)
Fixpoint DebugCode (fuel : nat) (c : t) (i : Z)
    : option (list (Z * string * option Z)) :=
  if i <? len (code c)
  then
    match fuel with
    | O => None
    | S fuel' =>
        match Get c i with
        | Panic => None
        | r =>
            let op := match r with Ok b => b | _ => 0 end in
            if wide op
            then
              match Get32 c (GoInt.add i 1) with
              | Panic => None
              | r32 =>
                  let arg := match r32 with Ok n => n | _ => 0 end in
                  rest ← DebugCode fuel' c (GoInt.add i 5);
                  Some ((i, OpcodeToString op, Some arg) :: rest)
              end
            else
              rest ← DebugCode fuel' c (GoInt.add i 1);
              Some ((i, OpcodeToString op, None) :: rest)
        end
    end
  else Some [].

End CodeChunk.

(** ** Frame *)

Module Frame.

Definition defaultStackSize : Z := 32.

Record t : Type := mk {
  stack : list Value;
  args : list Value;
  closedOvers : list Value;
  argc : Z;
  consts : list Value;
  constsc : Z;
  code : CodeChunk.t;
  ip : Z;
  sp : Z
}.

Definition with_stack (f : t) (s : list Value) : t :=
  mk s (args f) (closedOvers f) (argc f) (consts f) (constsc f) (code f) (ip f) (sp f).

Definition with_ip (f : t) (i : Z) : t :=
  mk (stack f) (args f) (closedOvers f) (argc f) (consts f) (constsc f) (code f) i (sp f).

Definition with_sp (f : t) (i : Z) : t :=
  mk (stack f) (args f) (closedOvers f) (argc f) (consts f) (constsc f) (code f) (ip f) i.

(** [make([]Value, code.maxStack)] panics on a negative length; the cells
    of the fresh stack are Go's nil interface value, which no instruction
    reads before writing (every read is below [sp]); they are shown here as
    [NIL]. *)
Definition NewFrame (c : CodeChunk.t) (a : list Value) : option t :=
  if CodeChunk.maxStack c <? 0 then None
  else Some (mk (replicate (Z.to_nat (CodeChunk.maxStack c)) NIL)
                a [] (len a)
                (CodeChunk.consts c) (len (CodeChunk.consts c))
                c 0 0).

Definition Push (f : t) (v : Value) : Res t :=
  if sp f >=? defaultStackSize - 1
  then Err (NewExecutionError "stack overflow")
  else match assign (stack f) (sp f) v with
       | Some s => Ok (with_sp (with_stack f s) (GoInt.add (sp f) 1))
       | None => Panic
       end.

Definition Pop (f : t) : Res (Value * t) :=
  if sp f =? 0
  then Err (NewExecutionError "stack underflow")
  else let f' := with_sp f (GoInt.sub (sp f) 1) in
       match index (stack f') (sp f') with
       | Some v => Ok (v, f')
       | None => Panic
       end.

Definition Nth (f : t) (n : Z) : Res Value :=
  let i := GoInt.sub (GoInt.sub (sp f) 1) n in
  if i <? 0
  then Err (NewExecutionError "Nth: stack underflow")
  else match index (stack f) i with
       | Some v => Ok v
       | None => Panic
       end.

Definition Mult (f : t) (start count : Z) : Res (list Value) :=
  if count <? 0
  then Err (NewExecutionError "Mult: count 0 or negative")
  else let i := GoInt.sub (sp f) start in
       if GoInt.sub i count <? 0
       then Err (NewExecutionError "Mult: stack underflow")
       else match slice (stack f) (GoInt.sub i count) i with
            | Some a => Ok a
            | None => Panic
            end.

Definition Drop (f : t) (n : Z) : Res t :=
  let top := GoInt.sub (sp f) 1 in
  if top <? 0
  then Err (NewExecutionError "Drop: stack underflow")
  else let f' := with_sp f (GoInt.sub (sp f) n) in
       if sp f' <? 0
       then Err (NewExecutionError "Drop: stack underflow")
       else Ok f'.

(** One iteration of the loop of [Run]. *)
Inductive Outcome : Type :=
| Continue (f : t) (h : Heap)   (* the loop goes on *)
| Return (v : Value) (h : Heap) (* [return v, nil] *)
| Fail (e : Error) (h : Heap)   (* [return NIL, e] *)
| Crash.                        (* run-time panic *)

(** What [Run] hands back: the pair [(Value, error)], a panic, or a loop
    still running when the fuel is spent. *)
Inductive RunResult : Type :=
| Returns (v : Value) (err : option Error) (h : Heap)
| Panics
| OutOfFuel (f : t) (h : Heap).

(** [x, err := r; if err != nil { return NIL, NewExecutionError(msg).Wrap(err) }] *)
Definition guard {A} (r : Res A) (msg : string) (h : Heap)
    (k : A -> Outcome) : Outcome :=
  match r with
  | Ok a => k a
  | Err e => Fail (Wrap (NewExecutionError msg) (Some e)) h
  | Panic => Crash
  end.

(** [inst, _ := f.code.Get(f.ip)]: the error is dropped and [inst] is then
    the zero value of [uint8]. *)
Definition fetch (f : t) : option Z :=
  match CodeChunk.Get (code f) (ip f) with
  | Ok b => Some b
  | Err _ => Some 0
  | Panic => None
  end.

(** The 32-bit operand that follows the opcode. *)
Definition operand (f : t) : Res Z :=
  CodeChunk.Get32 (code f) (GoInt.add (ip f) 1).

Definition advance (f : t) (n : Z) : t := with_ip f (GoInt.add (ip f) n).

Section Host.

(** [fn.Invoke(a)]: the implementations of the [Fn] interface are not in
    the sources at hand. The call may read and change the heap; [None]
    is a panic of the callee. The callee receives the cells of the
    caller's stack themselves; they are dead once [Drop] has run, and no
    instruction reads a cell at or above [sp]. *)
Variable Invoke : Value -> list Value -> Heap -> option (Value * Heap).

Definition step (f : t) (h : Heap) : Outcome :=
  match fetch f with
  | None => Crash
  | Some inst =>
    match decode inst with
    | Some OPNOP => Continue (advance f 1) h

    | Some OPLDC =>
        guard (operand f) "const push failed" h (fun idx =>
        if idx >=? constsc f
        then Fail (NewExecutionError "const lookup out of bounds") h
        else match index (consts f) idx with
             | None => Crash
             | Some v =>
                 guard (Push f v) "const push failed" h (fun f1 =>
                 Continue (advance f1 5) h)
             end)

    | Some OPLDA =>
        guard (operand f) "get argument index failed" h (fun idx =>
        if idx >=? argc f
        then Fail (NewExecutionError "argument lookup out of bounds") h
        else match index (args f) idx with
             | None => Crash
             | Some v =>
                 guard (Push f v) "argument push failed" h (fun f1 =>
                 Continue (advance f1 5) h)
             end)

    | Some OPRET =>
        guard (Pop f) "return failed" h (fun '(v, _) => Return v h)

    | Some OPINV =>
        guard (operand f) "INV arg count" h (fun arity =>
        guard (Nth f arity) "invoke instruction failed" h (fun fraw =>
        if negb (isFn fraw)
        then Fail (NewTypeError fraw "is not a function" None) h
        else
          guard (Mult f 0 arity) "popping arguments failed" h (fun a =>
          match Invoke fraw a h with
          | None => Crash
          | Some (out, h1) =>
              guard (Drop f (GoInt.add arity 1)) "cleaning stack after call" h1 (fun f1 =>
              guard (Push f1 out) "pushing return value failed" h1 (fun f2 =>
              Continue (advance f2 5) h1))
          end)))

    | Some OPBRT =>
        guard (operand f) "BRT offset" h (fun offset =>
        guard (Pop f) "BRT pop condition" h (fun '(v, f1) =>
        if negb (IsTruthy v)
        then Continue (advance f1 5) h
        else Continue (advance f1 offset) h))

    | Some OPBRF =>
        guard (operand f) "BRT offset" h (fun offset =>
        guard (Pop f) "BRT pop condition" h (fun '(v, f1) =>
        if IsTruthy v
        then Continue (advance f1 5) h
        else Continue (advance f1 offset) h))

    | Some OPJMP =>
        guard (operand f) "JMP offset" h (fun offset =>
        Continue (advance f offset) h)

    | Some OPPOP =>
        guard (Pop f) "POP failed" h (fun '(_, f1) =>
        Continue (advance f1 1) h)

    | Some OPPON =>
        guard (Pop f) "PON top value" h (fun '(v, f1) =>
        guard (operand f1) "PON get argument" h (fun num =>
        guard (Drop f1 num) "PON drop" h (fun f2 =>
        guard (Push f2 v) "PON push" h (fun f3 =>
        Continue (advance f3 5) h))))

    | Some OPDPN =>
        guard (operand f) "DPN get argument" h (fun num =>
        guard (Nth f num) "DPN get nth" h (fun val =>
        guard (Push f val) "DPN push" h (fun f1 =>
        Continue (advance f1 5) h)))

    | Some OPSTV =>
        guard (Pop f) "STV pop value failed" h (fun '(val, f1) =>
        guard (Pop f1) "STV pop var failed" h (fun '(varr, f2) =>
        match varr with
        | Var a =>
            let h1 := SetRoot a val h in
            guard (Push f2 varr) "STV push var failed" h1 (fun f3 =>
            Continue (advance f3 1) h1)
        | _ => Fail (Wrap (NewExecutionError "STV invalid Var") None) h
        end))

    | Some OPLDV =>
        let idx := GoInt.sub (sp f) 1 in
        if idx <? 0
        then Fail (NewExecutionError "LDV stack underflow") h
        else match index (stack f) idx with
             | None => Crash
             | Some (Var a) =>
                 match assign (stack f) idx (Deref a h) with
                 | None => Crash
                 | Some s => Continue (advance (with_stack f s) 1) h
                 end
             | Some _ => Fail (NewExecutionError "LDV invalid var on stack") h
             end

    | Some OPLDK =>
        guard (operand f) "get closed over index failed" h (fun idx =>
        if idx >=? len (closedOvers f)
        then Fail (NewExecutionError "closed over lookup out of bounds") h
        else match index (closedOvers f) idx with
             | None => Crash
             | Some v =>
                 guard (Push f v) "closed over push failed" h (fun f1 =>
                 Continue (advance f1 5) h)
             end)

    | Some OPPAK =>
        guard (Pop f) "popping closed over value failed" h (fun '(val, f1) =>
        let idx := GoInt.sub (sp f1) 1 in
        if idx <? 0
        then Fail (Wrap (NewExecutionError "PAK stack overflow") None) h
        else match index (stack f1) idx with
             | None => Crash
             | Some cls =>
                 if negb (isFunc cls)
                 then Fail (NewExecutionError "PAK expected a Fn") h
                 else match cls with
                      | Func a => Continue (advance f1 1) (appendClosedOver a val h)
                      | _ => Crash
                      end
             end)

    | None => Fail (NewExecutionError "unknown instruction") h
    end
  end.

(** [Run]: the [for] loop, bounded by [fuel] iterations. *)
Fixpoint Run (fuel : nat) (f : t) (h : Heap) : RunResult :=
  match fuel with
  | O => OutOfFuel f h
  | S fuel' =>
      match step f h with
      | Continue f' h' => Run fuel' f' h'
      | Return v h' => Returns v None h'
      | Fail e h' => Returns NIL (Some e) h'
      | Crash => Panics
      end
  end.

End Host.

End Frame.

(** ** The natives of the [lang] namespace (package [rt]) *)

Module rt.

(** Modelled from the spec: [Value.Unbox] is not in the sources at hand; it
    gives "a host-native equivalent" of the value. The unchecked type
    assertion [v.Unbox().(int)] succeeds on an Integer and panics on every
    other value ([None]). *)
Definition unboxInt (v : Value) : option Z :=
  match v with
  | Int n => Some n
  | _ => None
  end.

(** [for i := range vs { n = op(n, vs[i].Unbox().(int)) }], from [n]. *)
Fixpoint accumulate (op : Z -> Z -> option Z) (n : Z) (vs : list Value)
    : option Z :=
  match vs with
  | [] => Some n
  | v :: vs' =>
      x ← unboxInt v;
      n' ← op n x;
      accumulate op n' vs'
  end.

Definition plus (vs : list Value) : option Value :=
  n ← accumulate (fun n x => Some (GoInt.add n x)) 0 vs;
  Some (Int n).

Definition mul (vs : list Value) : option Value :=
  n ← accumulate (fun n x => Some (GoInt.mul n x)) 1 vs;
  Some (Int n).

Definition sub (vs : list Value) : option Value :=
  if len vs <? 1 then Some NIL
  else
    v0 ← index vs 0;
    n ← unboxInt v0;
    if len vs =? 1 then Some (Int (GoInt.neg n))
    else
      n' ← accumulate (fun n x => Some (GoInt.sub n x)) n (drop 1 vs);
      Some (Int n').

Definition div (vs : list Value) : option Value :=
  let n := 0 in
  if len vs <? 1 then Some NIL
  else
    n' ← accumulate GoInt.quo n vs;
    Some (Int n').

(** Modelled from the spec: [BooleanType.Box] is not in the sources at hand;
    boxing a Go [bool] gives the Boolean value and no error. *)
Definition boxBoolean (b : bool) : Res Value := Ok (Boolean b).

Definition compare (test : Z -> Z -> bool) (vs : list Value) : option Value :=
  if negb (len vs =? 2) then Some NIL
  else
    v0 ← index vs 0;
    a ← unboxInt v0;
    v1 ← index vs 1;
    b ← unboxInt v1;
    match boxBoolean (test a b) with
    | Ok ret => Some ret
    | _ => Some NIL
    end.

Definition gt : list Value -> option Value := compare Z.gtb.
Definition lt : list Value -> option Value := compare Z.ltb.

(** [vs[0] != vs[i]] compares two interface values: [same a b] is the
    outcome of Go's [==] on them, [None] when the comparison panics (two
    values of one type that is not comparable). How the values are laid out
    in Go is not in the sources at hand. *)
Section Equals.

Variable same : Value -> Value -> option bool.

Fixpoint equals_from (v0 : Value) (rest : list Value) : option Value :=
  match rest with
  | [] => Some TRUE
  | v :: rest' =>
      eq ← same v0 v;
      if negb eq then Some FALSE else equals_from v0 rest'
  end.

Definition equals (vs : list Value) : option Value :=
  let length := len vs in
  if length <? 1 then Some NIL
  else
    v0 ← index vs 0;
    equals_from v0 (drop 1 vs).

End Equals.

(** The registry of namespaces: [nsRegistry], [NS] and [RegisterNS]. The
    type [vm.Namespace] and its method [Name] are not in the sources at
    hand; a missing key of the Go map reads as the nil pointer, [None]. *)
Section Registry.

Variable Namespace : Type.
Variable Name : Namespace -> string.

Definition NS (nsRegistry : gmap string Namespace) (name : string)
    : option Namespace :=
  nsRegistry !! name.

Definition RegisterNS (nsRegistry : gmap string Namespace) (namespace : Namespace)
    : gmap string Namespace * Namespace :=
  (<[Name namespace := namespace]> nsRegistry, namespace).

End Registry.

Section Seq.

(** The [Seq] and [Collection] interfaces are not in the sources at hand:
    [isSeq v] is the outcome of the type assertion [v.(vm.Seq)], the three
    functions are the methods of a sequence, and [Count] is
    [n.(vm.Collection).Count().(vm.Int)], [None] when an assertion panics. *)
Variable isSeq : Value -> bool.
Variable Cons : Value -> Value -> Value.
Variable First : Value -> Value.
Variable Next : Value -> Value.
Variable Count : Value -> option Z.

Definition cons (vs : list Value) : option Value :=
  if negb (len vs =? 2) then Some NIL
  else
    elem ← index vs 0;
    s ← index vs 1;
    if negb (isSeq s) then Some NIL
    else Some (Cons s elem).

Definition first (vs : list Value) : option Value :=
  if negb (len vs =? 1) then Some NIL
  else
    s ← index vs 0;
    if negb (isSeq s) then Some NIL
    else Some (First s).

Definition second (vs : list Value) : option Value :=
  if negb (len vs =? 1) then Some NIL
  else
    s ← index vs 0;
    if negb (isSeq s) then Some NIL
    else Some (First (Next s)).

Definition next (vs : list Value) : option Value :=
  if negb (len vs =? 1) then Some NIL
  else
    s ← index vs 0;
    if negb (isSeq s) then Some NIL
    else
      let n := Next s in
      c ← Count n;
      if c =? 0 then Some NIL else Some n.

End Seq.

(** Modelled from the spec: the List variant as a sequence ("singly-linked
    sequence of values"), to run the sequence natives on. *)
Definition listIsSeq (v : Value) : bool :=
  match v with
  | List _ => true
  | _ => false
  end.

Definition listCons (s elem : Value) : Value :=
  match s with
  | List vs => List (elem :: vs)
  | _ => NIL
  end.

Definition listFirst (s : Value) : Value :=
  match s with
  | List (v :: _) => v
  | _ => NIL
  end.

Definition listNext (s : Value) : Value :=
  match s with
  | List (_ :: vs) => List vs
  | _ => List []
  end.

Definition listCount (s : Value) : option Z :=
  match s with
  | List vs => Some (len vs)
  | _ => None
  end.

(** The table built by [ns.Def]: name of the native, native. *)
Definition lang : list (string * (list Value -> option Value)) :=
  [("+"%string, plus); ("*"%string, mul); ("-"%string, sub); ("/"%string, div);
   ("gt"%string, gt); ("lt"%string, lt);
   ("cons"%string, cons listIsSeq listCons);
   ("first"%string, first listIsSeq listFirst);
   ("second"%string, second listIsSeq listFirst listNext);
   ("next"%string, next listIsSeq listNext listCount)].

Fixpoint resolve (name : string) (table : list (string * (list Value -> option Value)))
    : option (list Value -> option Value) :=
  match table with
  | [] => None
  | (k, fn) :: rest => if String.eqb k name then Some fn else resolve name rest
  end.

(** Modelled from the spec: "a native function is called directly with the
    argument slice; its return value is the pushed result". A host that
    knows the natives of [lang] only: it leaves the heap as it is, and has
    no result for any other callee. *)
Definition invokeNative (fn : Value) (a : list Value) (h : Heap)
    : option (Value * Heap) :=
  match fn with
  | NativeFn name =>
      native ← resolve name lang;
      out ← native a;
      Some (out, h)
  | _ => None
  end.

End rt.

(** ** Well-formed frames and execution faults *)

(** What every frame made by [NewFrame] and moved by [Run] satisfies: the
    stack pointer lies within the stack and never passes the bound of
    [Push]; the fields hold Go integers and the code holds bytes. *)
Record wf (f : Frame.t) : Prop := mk_wf {
  wf_sp : 0 <= Frame.sp f <= len (Frame.stack f);
  wf_bound : Frame.sp f <= Frame.defaultStackSize - 1;
  wf_ip : GoInt.in_range (Frame.ip f);
  wf_len : len (CodeChunk.code (Frame.code f)) <= GoInt.max_int;
  wf_bytes : Forall (fun b => 0 <= b < 256) (CodeChunk.code (Frame.code f))
}.

(** The opcode that the frame is about to execute. *)
Definition next_opcode (f : Frame.t) (op : Opcode) : Prop :=
  CodeChunk.Get (Frame.code f) (Frame.ip f) = Ok (opcode_value op).

(** The opcodes whose first action is the fetch of their operand, and those
    whose first action is a [Pop]. [PON] pops before it fetches. *)
Definition fetches_first (op : Opcode) : bool :=
  match op with
  | OPLDC | OPLDA | OPINV | OPBRT | OPBRF | OPJMP | OPDPN | OPLDK => true
  | _ => false
  end.

Definition pops_first (op : Opcode) : bool :=
  match op with
  | OPRET | OPPOP | OPPON | OPSTV | OPPAK => true
  | _ => false
  end.

Definition isVar (v : Value) : bool :=
  match v with
  | Var _ => true
  | _ => false
  end.

(** The execution faults, as the specification lists them: a failed fetch of
    an operand, stack underflow, stack overflow at the bound of [Push], an
    index out of the constants, of the arguments or of the captured values,
    a value that is not a Var at [STV] or [LDV], a value that is not a
    compiled function at [PAK], and an unknown opcode. *)
Inductive ExecutionFault (f : Frame.t) : Prop :=
| fault_fetch op e :
    next_opcode f op -> fetches_first op = true ->
    Frame.operand f = Err e -> ExecutionFault f
| fault_fetch_PON e :
    next_opcode f OPPON -> 0 < Frame.sp f ->
    Frame.operand f = Err e -> ExecutionFault f
| fault_underflow op :
    next_opcode f op -> pops_first op = true ->
    Frame.sp f = 0 -> ExecutionFault f
| fault_underflow_branch op off :
    next_opcode f op -> op = OPBRT \/ op = OPBRF ->
    Frame.operand f = Ok off -> Frame.sp f = 0 -> ExecutionFault f
| fault_underflow_second op :
    next_opcode f op -> op = OPSTV \/ op = OPPAK ->
    Frame.sp f = 1 -> ExecutionFault f
| fault_underflow_LDV :
    next_opcode f OPLDV -> Frame.sp f = 0 -> ExecutionFault f
| fault_underflow_depth op n :
    next_opcode f op -> op = OPINV \/ op = OPDPN ->
    Frame.operand f = Ok n -> Frame.sp f <= n -> ExecutionFault f
| fault_underflow_PON n :
    next_opcode f OPPON -> Frame.operand f = Ok n ->
    Frame.sp f = 1 \/ 1 < Frame.sp f < n + 1 -> ExecutionFault f
| fault_overflow_LDC idx v :
    next_opcode f OPLDC -> Frame.operand f = Ok idx ->
    idx < Frame.constsc f -> index (Frame.consts f) idx = Some v ->
    Frame.defaultStackSize - 1 <= Frame.sp f -> ExecutionFault f
| fault_overflow_LDA idx v :
    next_opcode f OPLDA -> Frame.operand f = Ok idx ->
    idx < Frame.argc f -> index (Frame.args f) idx = Some v ->
    Frame.defaultStackSize - 1 <= Frame.sp f -> ExecutionFault f
| fault_overflow_LDK idx v :
    next_opcode f OPLDK -> Frame.operand f = Ok idx ->
    idx < len (Frame.closedOvers f) ->
    index (Frame.closedOvers f) idx = Some v ->
    Frame.defaultStackSize - 1 <= Frame.sp f -> ExecutionFault f
| fault_overflow_DPN n v :
    next_opcode f OPDPN -> Frame.operand f = Ok n ->
    index (Frame.stack f) (Frame.sp f - 1 - n) = Some v ->
    Frame.defaultStackSize - 1 <= Frame.sp f -> ExecutionFault f
| fault_const_index idx :
    next_opcode f OPLDC -> Frame.operand f = Ok idx ->
    Frame.constsc f <= idx -> ExecutionFault f
| fault_argument_index idx :
    next_opcode f OPLDA -> Frame.operand f = Ok idx ->
    Frame.argc f <= idx -> ExecutionFault f
| fault_capture_index idx :
    next_opcode f OPLDK -> Frame.operand f = Ok idx ->
    len (Frame.closedOvers f) <= idx -> ExecutionFault f
| fault_STV_not_Var v w :
    next_opcode f OPSTV ->
    index (Frame.stack f) (Frame.sp f - 1) = Some v ->
    index (Frame.stack f) (Frame.sp f - 2) = Some w ->
    isVar w = false -> ExecutionFault f
| fault_LDV_not_Var w :
    next_opcode f OPLDV ->
    index (Frame.stack f) (Frame.sp f - 1) = Some w ->
    isVar w = false -> ExecutionFault f
| fault_PAK_not_Func v w :
    next_opcode f OPPAK ->
    index (Frame.stack f) (Frame.sp f - 1) = Some v ->
    index (Frame.stack f) (Frame.sp f - 2) = Some w ->
    isFunc w = false -> ExecutionFault f
| fault_unknown_opcode b :
    CodeChunk.Get (Frame.code f) (Frame.ip f) = Ok b ->
    decode b = None -> ExecutionFault f.

(** The type mismatch of [INV]: the value at the depth of the callee is not
    a function. *)
Definition InvokesNonFunction (f : Frame.t) (fraw : Value) : Prop :=
  exists n,
    next_opcode f OPINV /\
    Frame.operand f = Ok n /\
    index (Frame.stack f) (Frame.sp f - 1 - n) = Some fraw /\
    isFn fraw = false.

(** What every chunk built by [NewCodeChunk], [Append], [Append32],
    [AppendChunk] and [Update32] satisfies: [length] is the number of bytes
    of the code, which fits a Go integer, and the code holds bytes. *)
Record wf_chunk (c : CodeChunk.t) : Prop := mk_wf_chunk {
  wfc_length : CodeChunk.length c = len (CodeChunk.code c);
  wfc_len : len (CodeChunk.code c) <= GoInt.max_int;
  wfc_bytes : Forall (fun b => 0 <= b < 256) (CodeChunk.code c)
}.

(** [k] calls of [Pop] in a row, the popped values dropped. *)
Fixpoint pops (k : nat) (f : Frame.t) : Res Frame.t :=
  match k with
  | O => Ok f
  | S k' =>
      match Frame.Pop f with
      | Ok (_, f1) => pops k' f1
      | Err e => Err e
      | Panic => Panic
      end
  end.

(** Two states of one frame: the size of the stack, the code, the
    constants, the arguments and the captured values are the same; the
    cells of the stack, [ip] and [sp] may differ. *)
Record same_program (f f' : Frame.t) : Prop := mk_same_program {
  same_size : len (Frame.stack f') = len (Frame.stack f);
  same_code : Frame.code f' = Frame.code f;
  same_consts : Frame.consts f' = Frame.consts f;
  same_constsc : Frame.constsc f' = Frame.constsc f;
  same_args : Frame.args f' = Frame.args f;
  same_argc : Frame.argc f' = Frame.argc f;
  same_closedOvers : Frame.closedOvers f' = Frame.closedOvers f
}.

(** Sum and product of a list of integers. *)
Definition sumZ (zs : list Z) : Z := foldr Z.add 0 zs.
Definition prodZ (zs : list Z) : Z := foldr Z.mul 1 zs.

Definition isInt (v : Value) : bool :=
  match v with
  | Int _ => true
  | _ => false
  end.

(** ** Chunks and frames to run *)

(** An instruction with its operand, as the compiler appends it. *)
Definition emit32 (c : CodeChunk.t) (op : Opcode) (operand : Z) : CodeChunk.t :=
  CodeChunk.Append32 (CodeChunk.Append c [opcode_value op]) operand.

Definition emit (c : CodeChunk.t) (op : Opcode) : CodeChunk.t :=
  CodeChunk.Append c [opcode_value op].

(** A program as a list of instructions, the chunk that appending them one
    after the other builds, and the listing one expects of it. *)
Inductive Instr : Type :=
| Plain (op : Opcode)
| Wide (op : Opcode) (operand : Z).

Definition instr_ok (i : Instr) : Prop :=
  match i with
  | Plain op => CodeChunk.wide (opcode_value op) = false
  | Wide op n => CodeChunk.wide (opcode_value op) = true /\ 0 <= n < 2 ^ 32
  end.

Definition append_instr (c : CodeChunk.t) (i : Instr) : CodeChunk.t :=
  match i with
  | Plain op => emit c op
  | Wide op n => emit32 c op n
  end.

Definition assemble (c : CodeChunk.t) (prog : list Instr) : CodeChunk.t :=
  foldl append_instr c prog.

Definition encode_instr (i : Instr) : list Z :=
  match i with
  | Plain op => [opcode_value op]
  | Wide op n => opcode_value op :: CodeChunk.PutUint32 n
  end.

Fixpoint listing (addr : Z) (prog : list Instr)
    : list (Z * string * option Z) :=
  match prog with
  | [] => []
  | Plain op :: rest =>
      (addr, OpcodeToString (opcode_value op), None) :: listing (addr + 1) rest
  | Wide op n :: rest =>
      (addr, OpcodeToString (opcode_value op), Some n) :: listing (addr + 5) rest
  end.

(** [(+ 1 2)] applied by hand: [LDC 0; LDC 1; LDC 2; INV 2; RET]. *)
Definition chunk_call : CodeChunk.t :=
  let c := CodeChunk.NewCodeChunk [NativeFn "+"; Int 1; Int 2] in
  let c := emit32 (emit32 (emit32 c OPLDC 0) OPLDC 1) OPLDC 2 in
  CodeChunk.SetMaxStack (emit (emit32 c OPINV 2) OPRET) 3.

(** The frame of [chunk_call] when it reaches [INV]. *)
Definition frame_call : Frame.t :=
  Frame.mk [NativeFn "+"; Int 1; Int 2] [] [] 0
           (CodeChunk.consts chunk_call) 3 chunk_call 15 3.

(** The frame that [NewFrame] makes for [chunk_call]. *)
Definition frame_fresh : Frame.t :=
  Frame.mk [NIL; NIL; NIL] [] [] 0 (CodeChunk.consts chunk_call) 3 chunk_call 0 0.

(** [LDC 0; BRF 11; LDC 1; RET; LDC 2; RET], with the condition [false]. *)
Definition chunk_branch : CodeChunk.t :=
  let c := CodeChunk.NewCodeChunk [FALSE; Int 1; Int 2] in
  let c := emit (emit32 (emit32 (emit32 c OPLDC 0) OPBRF 11) OPLDC 1) OPRET in
  CodeChunk.SetMaxStack (emit (emit32 c OPLDC 2) OPRET) 1.

(** The frame of [chunk_branch] when it reaches [BRF]. *)
Definition frame_branch : Frame.t :=
  Frame.mk [FALSE] [] [] 0 (CodeChunk.consts chunk_branch) 3 chunk_branch 5 1.

(** [(def x 42)]: [LDC 0; LDC 1; STV; RET], the Var at address 7. *)
Definition chunk_def : CodeChunk.t :=
  let c := CodeChunk.NewCodeChunk [Var 7; Int 42] in
  let c := emit32 (emit32 c OPLDC 0) OPLDC 1 in
  CodeChunk.SetMaxStack (emit (emit c OPSTV) OPRET) 2.

(** The frame of [chunk_def] when it reaches [STV]. *)
Definition frame_def : Frame.t :=
  Frame.mk [Var 7; Int 42] [] [] 0 (CodeChunk.consts chunk_def) 2 chunk_def 10 2.

(** [LDC 0; LDC 1; LDC 2; PON 2; RET]: two bindings and a result. *)
Definition chunk_let : CodeChunk.t :=
  let c := CodeChunk.NewCodeChunk [Int 10; Int 20; Int 30] in
  let c := emit32 (emit32 (emit32 c OPLDC 0) OPLDC 1) OPLDC 2 in
  CodeChunk.SetMaxStack (emit (emit32 c OPPON 2) OPRET) 3.

(** The frame of [chunk_let] when it reaches [PON]. *)
Definition frame_let : Frame.t :=
  Frame.mk [Int 10; Int 20; Int 30] [] [] 0
           (CodeChunk.consts chunk_let) 3 chunk_let 15 3.

(** [LDC 0; PON 0; RET]: a result and no binding. *)
Definition chunk_let_empty : CodeChunk.t :=
  let c := CodeChunk.NewCodeChunk [Int 1] in
  CodeChunk.SetMaxStack (emit (emit32 (emit32 c OPLDC 0) OPPON 0) OPRET) 1.

(** The frame of [chunk_let_empty] when it reaches [PON]. *)
Definition frame_let_empty : Frame.t :=
  Frame.mk [Int 1] [] [] 0
           (CodeChunk.consts chunk_let_empty) 1 chunk_let_empty 5 1.

(** [LDC 0; INV 0; RET]: the callee is the Integer 5. *)
Definition chunk_call_integer : CodeChunk.t :=
  let c := CodeChunk.NewCodeChunk [Int 5] in
  CodeChunk.SetMaxStack (emit (emit32 (emit32 c OPLDC 0) OPINV 0) OPRET) 1.

(** The frame of [chunk_call_integer] when it reaches [INV]. *)
Definition frame_call_integer : Frame.t :=
  Frame.mk [Int 5] [] [] 0
           (CodeChunk.consts chunk_call_integer) 1 chunk_call_integer 5 1.

(** [LDC 0; LDC 0; RET] with a declared maximum depth of 1. *)
Definition chunk_two_pushes : CodeChunk.t :=
  let c := CodeChunk.NewCodeChunk [Int 1] in
  CodeChunk.SetMaxStack (emit (emit32 (emit32 c OPLDC 0) OPLDC 0) OPRET) 1.

(** The frame of [chunk_two_pushes] after the first [LDC]. *)
Definition frame_two_pushes : Frame.t :=
  Frame.mk [Int 1] [] [] 0
           (CodeChunk.consts chunk_two_pushes) 1 chunk_two_pushes 5 1.

(** [LDC 0; POP]: a chunk without [RET]. *)
Definition chunk_no_return : CodeChunk.t :=
  let c := CodeChunk.NewCodeChunk [Int 1] in
  CodeChunk.SetMaxStack (emit (emit32 c OPLDC 0) OPPOP) 1.

(** The frame of [chunk_no_return] after its two instructions. *)
Definition frame_no_return : Frame.t :=
  Frame.mk [Int 1] [] [] 0
           (CodeChunk.consts chunk_no_return) 1 chunk_no_return 6 0.

(** The frame of [chunk_call] when it reaches [RET]. *)
Definition frame_call_done : Frame.t :=
  Frame.mk [Int 3; Int 1; Int 2] [] [] 0
           (CodeChunk.consts chunk_call) 3 chunk_call 20 1.

(** [LDC 0; LDV; RET]: the use of the Var at address 7. *)
Definition chunk_use : CodeChunk.t :=
  let c := CodeChunk.NewCodeChunk [Var 7] in
  CodeChunk.SetMaxStack (emit (emit (emit32 c OPLDC 0) OPLDV) OPRET) 1.

(** The frame of [chunk_use] when it reaches [LDV]. *)
Definition frame_use : Frame.t :=
  Frame.mk [Var 7] [] [] 0 (CodeChunk.consts chunk_use) 1 chunk_use 5 1.

(** [LDC 0; LDC 1; PAK; RET]: a closure over the Integer 5. *)
Definition chunk_closure : CodeChunk.t :=
  let c := CodeChunk.NewCodeChunk [Func 3; Int 5] in
  let c := emit32 (emit32 c OPLDC 0) OPLDC 1 in
  CodeChunk.SetMaxStack (emit (emit c OPPAK) OPRET) 2.

(** The frame of [chunk_closure] when it reaches [PAK]. *)
Definition frame_closure : Frame.t :=
  Frame.mk [Func 3; Int 5] [] [] 0
           (CodeChunk.consts chunk_closure) 2 chunk_closure 10 2.

(** [LDC 0; LDC 1; STV; LDV; RET]: a definition and its use. *)
Definition chunk_def_use : CodeChunk.t :=
  let c := CodeChunk.NewCodeChunk [Var 7; Int 42] in
  let c := emit32 (emit32 c OPLDC 0) OPLDC 1 in
  CodeChunk.SetMaxStack (emit (emit (emit c OPSTV) OPLDV) OPRET) 2.

(** The frame of [chunk_def_use] when it reaches [STV]. *)
Definition frame_def_use : Frame.t :=
  Frame.mk [Var 7; Int 42] [] [] 0
           (CodeChunk.consts chunk_def_use) 2 chunk_def_use 10 2.

(** [JMP 0]: a jump to itself. *)
Definition chunk_spin : CodeChunk.t :=
  CodeChunk.SetMaxStack (emit32 (CodeChunk.NewCodeChunk []) OPJMP 0) 0.

(** [NOP; NOP; NOP; NOP; NOP; JMP -5; RET]: a jump back to address 0. *)
Definition chunk_jump_back : CodeChunk.t :=
  let c := CodeChunk.NewCodeChunk [] in
  let c := emit (emit (emit (emit (emit c OPNOP) OPNOP) OPNOP) OPNOP) OPNOP in
  CodeChunk.SetMaxStack (emit (emit32 c OPJMP (-5)) OPRET) 0.

(** The frame of [chunk_jump_back] when it reaches [JMP]. *)
Definition frame_jump_back : Frame.t :=
  Frame.mk [] [] [] 0 [] 0 chunk_jump_back 5 0.

(** [LDC 0; BRF -5; RET], with the condition [false]: a branch back to
    address 0. *)
Definition chunk_branch_back : CodeChunk.t :=
  let c := CodeChunk.NewCodeChunk [FALSE] in
  CodeChunk.SetMaxStack (emit (emit32 (emit32 c OPLDC 0) OPBRF (-5)) OPRET) 1.

(** The frame of [chunk_branch_back] when it reaches [BRF]. *)
Definition frame_branch_back : Frame.t :=
  Frame.mk [FALSE] [] [] 0 [FALSE] 1 chunk_branch_back 5 1.

(** [vm.NewFrame(chunk, args).Run()], as the read-eval-print loop calls it. *)
Definition runChunk (Invoke : Value -> list Value -> Heap -> option (Value * Heap))
    (fuel : nat) (c : CodeChunk.t) (a : list Value) (h : Heap)
    : Frame.RunResult :=
  match Frame.NewFrame c a with
  | Some f => Frame.Run Invoke fuel f h
  | None => Frame.Panics
  end.

(** [Run] has handed back a pair [(Value, error)]. *)
Definition returned (r : Frame.RunResult) : bool :=
  match r with
  | Frame.Returns _ _ _ => true
  | _ => false
  end.

(** * Properties *)

(** ** Go integers *)

Lemma wrap_id z : GoInt.in_range z -> GoInt.wrap z = z.
Proof.
  unfold GoInt.in_range, GoInt.min_int, GoInt.max_int, GoInt.wrap. intros Hz.
  rewrite Z.mod_small; lia.
Qed.

Lemma wrap_in_range z : GoInt.in_range (GoInt.wrap z).
Proof.
  unfold GoInt.in_range, GoInt.min_int, GoInt.max_int, GoInt.wrap.
  pose proof (Z.mod_pos_bound (z + 2 ^ 63) (2 ^ 64) ltac:(lia)). lia.
Qed.

Lemma add_id a b : GoInt.in_range (a + b) -> GoInt.add a b = a + b.
Proof. apply wrap_id. Qed.

Lemma decode_opcode_value op : decode (opcode_value op) = Some op.
Proof. by destruct op. Qed.

(** ** The natives *)

(** C8. The arithmetic identities of the natives: [(+)] is 0, [( * )] is 1,
    [(- 5)] is -5 and [(- 10 1 2 3)] is 4, subtraction folding to the left
    from the first argument. *)
Theorem arithmetic_identities :
  rt.plus [] = Some (Int 0) /\
  rt.mul [] = Some (Int 1) /\
  rt.sub [Int 5] = Some (Int (-5)) /\
  rt.sub [Int 10; Int 1; Int 2; Int 3] = Some (Int 4) /\
  (forall a b c d : Z,
     rt.sub [Int a; Int b; Int c; Int d]
     = Some (Int (GoInt.sub (GoInt.sub (GoInt.sub a b) c) d))).
Proof.
  repeat split; reflexivity.
Qed.

Lemma accumulate_quo_zero (vs : list Value) :
  Forall (fun v => exists z, v = Int z /\ z <> 0) vs ->
  rt.accumulate GoInt.quo 0 vs = Some 0.
Proof.
  induction 1 as [|v vs (z & -> & Hz) _ IH]; [reflexivity|].
  cbn. unfold GoInt.quo.
  destruct (Z.eqb_spec z 0) as [|_]; [done|].
  rewrite Z.quot_0_l by done. exact IH.
Qed.

(** C10. [/] returns Nil for no argument, and Integer 0 for every non-empty
    list of nonzero integers: the accumulator starts at 0 and is divided by
    each argument in turn. *)
Theorem div_of_nonzero_integers :
  rt.div [] = Some NIL /\
  forall vs : list Value,
    vs <> [] ->
    Forall (fun v => exists z, v = Int z /\ z <> 0) vs ->
    rt.div vs = Some (Int 0).
Proof.
  split; [reflexivity|].
  intros vs Hne Hvs. unfold rt.div.
  destruct vs as [|v vs]; [done|].
  replace (len (v :: vs) <? 1) with false
    by (symmetry; apply Z.ltb_ge; unfold len; cbn [length]; lia).
  by rewrite accumulate_quo_zero.
Qed.

Lemma div_of_nonzero_integers_witness :
  [Int 7; Int (-3); Int 1] <> [] /\
  Forall (fun v => exists z, v = Int z /\ z <> 0) [Int 7; Int (-3); Int 1] /\
  rt.div [Int 7; Int (-3); Int 1] = Some (Int 0).
Proof.
  assert (Hne : [Int 7; Int (-3); Int 1] <> []) by discriminate.
  assert (Hvs : Forall (fun v => exists z, v = Int z /\ z <> 0)
                       [Int 7; Int (-3); Int 1])
    by (repeat constructor; eexists; (split; [reflexivity | lia])).
  exact (conj Hne (conj Hvs
    (proj2 div_of_nonzero_integers [Int 7; Int (-3); Int 1] Hne Hvs))).
Defined.

Lemma index_of_len {A} (vs : list A) (i : Z) :
  0 <= i < len vs -> exists v, index vs i = Some v.
Proof.
  unfold index, len. intros Hi.
  destruct (Z.ltb_spec i 0); [lia|].
  apply lookup_lt_is_Some_2. lia.
Qed.

Section SeqNatives.

Variable isSeq : Value -> bool.
Variable Cons : Value -> Value -> Value.
Variable First : Value -> Value.
Variable Next : Value -> Value.
Variable Count : Value -> option Z.

(** C9. [gt] and [lt] called with an argument count other than 2, and
    [cons], [first], [second] and [next] called with a sequence argument
    that is not a sequence, give Nil: no panic, no error. The sequence
    argument is the second one of [cons] and the first one of the others. *)
Theorem natives_answer_nil (vs : list Value) :
  (len vs <> 2 -> rt.gt vs = Some NIL /\ rt.lt vs = Some NIL) /\
  ((forall s, index vs 1 = Some s -> isSeq s = false) ->
   rt.cons isSeq Cons vs = Some NIL) /\
  ((forall s, index vs 0 = Some s -> isSeq s = false) ->
   rt.first isSeq First vs = Some NIL /\
   rt.second isSeq First Next vs = Some NIL /\
   rt.next isSeq Next Count vs = Some NIL).
Proof.
  split; [|split].
  - intros Hlen. unfold rt.gt, rt.lt, rt.compare.
    destruct (Z.eqb_spec (len vs) 2) as [|_]; [done|]. done.
  - intros Hs. unfold rt.cons.
    destruct (Z.eqb_spec (len vs) 2) as [Hlen|_]; [|done]. cbn [negb].
    destruct (index_of_len vs 0 ltac:(lia)) as [elem ->].
    destruct (index_of_len vs 1 ltac:(lia)) as [s Hs1].
    rewrite Hs1. cbn. by rewrite (Hs s Hs1).
  - intros Hs. unfold rt.first, rt.second, rt.next.
    destruct (Z.eqb_spec (len vs) 1) as [Hlen|_]; [|done]. cbn [negb].
    destruct (index_of_len vs 0 ltac:(lia)) as [s Hs0].
    rewrite Hs0. cbn. by rewrite (Hs s Hs0).
Qed.

End SeqNatives.

Lemma natives_answer_nil_witness :
  rt.gt [Int 1; Int 2; Int 3] = Some NIL /\
  rt.lt [Int 1; Int 2; Int 3] = Some NIL /\
  rt.cons rt.listIsSeq rt.listCons [Int 1; Int 2] = Some NIL /\
  rt.first rt.listIsSeq rt.listFirst [Int 1] = Some NIL /\
  rt.second rt.listIsSeq rt.listFirst rt.listNext [Int 1] = Some NIL /\
  rt.next rt.listIsSeq rt.listNext rt.listCount [Int 1] = Some NIL.
Proof.
  pose proof (natives_answer_nil rt.listIsSeq rt.listCons rt.listFirst
                rt.listNext rt.listCount [Int 1; Int 2; Int 3]) as (Hcmp & _ & _).
  pose proof (natives_answer_nil rt.listIsSeq rt.listCons rt.listFirst
                rt.listNext rt.listCount [Int 1; Int 2]) as (_ & Hcons & _).
  pose proof (natives_answer_nil rt.listIsSeq rt.listCons rt.listFirst
                rt.listNext rt.listCount [Int 1]) as (_ & _ & Hfst).
  assert (H3 : len [Int 1; Int 2; Int 3] <> 2) by (vm_compute; discriminate).
  assert (H1 : forall s, index [Int 1; Int 2] 1 = Some s -> rt.listIsSeq s = false)
    by (intros s [= <-]; reflexivity).
  assert (H0 : forall s, index [Int 1] 0 = Some s -> rt.listIsSeq s = false)
    by (intros s [= <-]; reflexivity).
  destruct (Hcmp H3) as [Hgt Hlt]. destruct (Hfst H0) as (Hf & Hsnd & Hn).
  exact (conj Hgt (conj Hlt (conj (Hcons H1) (conj Hf (conj Hsnd Hn))))).
Defined.

(** ** Frames *)

Ltac in_range_lia :=
  unfold GoInt.in_range, GoInt.min_int, GoInt.max_int,
    Frame.defaultStackSize in *; lia.

(** Removes the wrap-around of the operations whose result is in range. *)
Ltac go_int :=
  unfold GoInt.add, GoInt.sub; cbv zeta;
  repeat match goal with
         | |- context [GoInt.wrap ?z] => rewrite (wrap_id z) by in_range_lia
         end.

Lemma index_Some {A} (s : list A) (i : Z) (v : A) :
  index s i = Some v <-> 0 <= i /\ s !! Z.to_nat i = Some v.
Proof.
  unfold index. destruct (Z.ltb_spec i 0).
  - split; [done | intros [? _]; lia].
  - split; [intros ?; split; [lia | done] | by intros [_ ?]].
Qed.

Lemma index_lt {A} (s : list A) (i : Z) (v : A) :
  index s i = Some v -> 0 <= i < len s.
Proof.
  intros [Hi Hv]%index_Some. apply lookup_lt_Some in Hv. unfold len. lia.
Qed.

Lemma assign_ok {A} (s : list A) (i : Z) (v : A) :
  0 <= i < len s -> assign s i v = Some (<[Z.to_nat i := v]> s).
Proof.
  intros Hi. unfold assign.
  destruct (Z.leb_spec 0 i); [|lia]. destruct (Z.ltb_spec i (len s)); [done|lia].
Qed.

Lemma slice_ok {A} (s : list A) (lo hi : Z) :
  0 <= lo <= hi -> hi <= len s ->
  slice s lo hi = Some (take (Z.to_nat (hi - lo)) (drop (Z.to_nat lo) s)).
Proof.
  intros Hlo Hhi. unfold slice.
  destruct (Z.leb_spec 0 lo); [|lia]. destruct (Z.leb_spec lo hi); [|lia].
  destruct (Z.leb_spec hi (len s)); [done|lia].
Qed.

Lemma Push_ok (f : Frame.t) (v : Value) :
  0 <= Frame.sp f < len (Frame.stack f) ->
  Frame.sp f < Frame.defaultStackSize - 1 ->
  Frame.Push f v
  = Ok (Frame.with_sp
          (Frame.with_stack f (<[Z.to_nat (Frame.sp f) := v]> (Frame.stack f)))
          (Frame.sp f + 1)).
Proof.
  intros Hsp Hb. unfold Frame.Push.
  destruct (Z.geb_spec (Frame.sp f) (Frame.defaultStackSize - 1)); [lia|].
  rewrite assign_ok by done. by go_int.
Qed.

Lemma Pop_ok (f : Frame.t) :
  wf f -> 0 < Frame.sp f ->
  exists v, index (Frame.stack f) (Frame.sp f - 1) = Some v /\
            Frame.Pop f = Ok (v, Frame.with_sp f (Frame.sp f - 1)).
Proof.
  intros [Hsp Hb _ _ _] Hpos. unfold Frame.Pop.
  destruct (Z.eqb_spec (Frame.sp f) 0); [lia|].
  go_int. cbn [Frame.stack Frame.sp Frame.with_sp].
  destruct (lookup_lt_is_Some_2 (Frame.stack f) (Z.to_nat (Frame.sp f - 1)))
    as [v Hv]; [unfold len in *; lia|].
  exists v. assert (Hi : index (Frame.stack f) (Frame.sp f - 1) = Some v)
    by (apply index_Some; split; [lia|done]).
  by rewrite Hi.
Qed.

Lemma Pop_empty (f : Frame.t) :
  Frame.sp f = 0 -> Frame.Pop f = Err (NewExecutionError "stack underflow").
Proof. intros H. unfold Frame.Pop. by rewrite H. Qed.

Lemma Nth_ok (f : Frame.t) (n : Z) (v : Value) :
  wf f -> 0 <= n ->
  index (Frame.stack f) (Frame.sp f - 1 - n) = Some v ->
  Frame.Nth f n = Ok v.
Proof.
  intros [Hsp Hb _ _ _] Hn Hv. unfold Frame.Nth.
  pose proof (index_lt _ _ _ Hv). go_int.
  destruct (Z.ltb_spec (Frame.sp f - 1 - n) 0); [lia|]. by rewrite Hv.
Qed.

Lemma Mult_ok (f : Frame.t) (n : Z) :
  wf f -> 0 <= n <= Frame.sp f ->
  Frame.Mult f 0 n
  = Ok (take (Z.to_nat n) (drop (Z.to_nat (Frame.sp f - n)) (Frame.stack f))).
Proof.
  intros [Hsp Hb _ _ _] Hn. unfold Frame.Mult.
  destruct (Z.ltb_spec n 0); [lia|]. go_int. rewrite Z.sub_0_r.
  destruct (Z.ltb_spec (Frame.sp f - n) 0); [lia|].
  rewrite slice_ok by lia. do 3 f_equal. lia.
Qed.

Lemma Drop_ok (f : Frame.t) (n : Z) :
  wf f -> 1 <= Frame.sp f -> 0 <= n <= Frame.sp f ->
  Frame.Drop f n = Ok (Frame.with_sp f (Frame.sp f - n)).
Proof.
  intros [Hsp Hb _ _ _] Hpos Hn. unfold Frame.Drop. go_int.
  destruct (Z.ltb_spec (Frame.sp f - 1) 0); [lia|].
  cbn [Frame.sp Frame.with_sp].
  destruct (Z.ltb_spec (Frame.sp f - n) 0); [lia|done].
Qed.

Lemma Uint32_nonneg (b : list Z) (n : Z) :
  Forall (fun x => 0 <= x < 256) b -> CodeChunk.Uint32 b = Some n ->
  4 <= len b /\ 0 <= n.
Proof.
  intros Hb Hn. unfold CodeChunk.Uint32 in Hn.
  destruct b as [|b0 [|b1 [|b2 [|b3 rest]]]]; try done.
  injection Hn as <-.
  apply Forall_cons in Hb as [H0 Hb]. apply Forall_cons in Hb as [H1 Hb].
  apply Forall_cons in Hb as [H2 Hb]. apply Forall_cons in Hb as [H3 _].
  split; [unfold len; cbn [length]; lia|].
  repeat (apply Z.lor_nonneg; split); try apply Z.shiftl_nonneg; lia.
Qed.

Lemma wrap_succ_nonneg (i : Z) :
  GoInt.in_range i -> 0 <= GoInt.add i 1 -> GoInt.add i 1 = i + 1.
Proof.
  intros Hi Hpos. destruct (Z.eq_dec i GoInt.max_int) as [->|Hne].
  - vm_compute in Hpos. done.
  - apply add_id. in_range_lia.
Qed.

(** A successful wide fetch after the opcode: the five bytes of the
    instruction lie within the code and the operand is not negative. *)
Lemma operand_Ok (f : Frame.t) (n : Z) :
  wf f -> Frame.operand f = Ok n ->
  0 <= Frame.ip f + 1 /\
  Frame.ip f + 5 <= len (CodeChunk.code (Frame.code f)) /\
  0 <= n.
Proof.
  intros [_ _ Hip Hlen Hbytes]. unfold Frame.operand, CodeChunk.Get32.
  destruct (_ || _); [done|].
  unfold slice.
  destruct (Z.leb_spec 0 (GoInt.add (Frame.ip f) 1)) as [Hlo|]; [|done].
  destruct (Z.leb_spec (GoInt.add (Frame.ip f) 1)
              (len (CodeChunk.code (Frame.code f)))) as [Hhi|]; [|done].
  rewrite Z.leb_refl. cbn [andb].
  pose proof (wrap_succ_nonneg _ Hip Hlo) as Hidx.
  rewrite Hidx in *.
  destruct (CodeChunk.Uint32 _) as [m|] eqn:Hm; [|done].
  intros [= ->]. apply Uint32_nonneg in Hm as [H4 Hn].
  - split; [lia|]. split; [|done].
    unfold len in *. rewrite length_take, length_drop in H4. lia.
  - apply Forall_take, Forall_drop, Hbytes.
Qed.

Lemma operand_advance (f : Frame.t) (n : Z) :
  wf f -> Frame.operand f = Ok n -> GoInt.add (Frame.ip f) 5 = Frame.ip f + 5.
Proof.
  intros Hwf Hop. destruct (operand_Ok f n Hwf Hop) as (H1 & H5 & _).
  destruct Hwf. apply add_id. in_range_lia.
Qed.

Section Run.

Variable Invoke : Value -> list Value -> Heap -> option (Value * Heap).

Ltac exec_opcode Hget :=
  unfold Frame.step, Frame.fetch; rewrite Hget, decode_opcode_value;
  cbv beta iota.

(** Branches, with the operand as [Get32] reads it, which is a number of
    [0 .. 2^32 - 1]: the operand is added to the instruction pointer while
    it still addresses the opcode byte of the branch. [JMP] sets [ip] to
    [ip + off]; [BRF] pops a value and sets [ip] to [ip + off] when the
    value is falsy and to [ip + 5] otherwise; [BRT] pops and sets [ip] to
    [ip + off] when the value is truthy and to [ip + 5] otherwise. The sum
    [ip + off] is the sum of Go integers. *)
Theorem branch_offsets_from_opcode (f : Frame.t) (h : Heap) (off : Z) :
  wf f ->
  Frame.operand f = Ok off ->
  let target := GoInt.add (Frame.ip f) off in
  (Frame.ip f + off <= GoInt.max_int -> target = Frame.ip f + off) /\
  (CodeChunk.Get (Frame.code f) (Frame.ip f) = Ok (opcode_value OPJMP) ->
   Frame.step Invoke f h = Frame.Continue (Frame.with_ip f target) h) /\
  (forall v, index (Frame.stack f) (Frame.sp f - 1) = Some v ->
     let popped := Frame.with_sp f (Frame.sp f - 1) in
     (CodeChunk.Get (Frame.code f) (Frame.ip f) = Ok (opcode_value OPBRF) ->
      Frame.step Invoke f h
      = Frame.Continue
          (Frame.with_ip popped
             (if IsTruthy v then Frame.ip f + 5 else target)) h) /\
     (CodeChunk.Get (Frame.code f) (Frame.ip f) = Ok (opcode_value OPBRT) ->
      Frame.step Invoke f h
      = Frame.Continue
          (Frame.with_ip popped
             (if IsTruthy v then target else Frame.ip f + 5)) h)).
Proof.
  intros Hwf Hop target.
  pose proof (operand_Ok f off Hwf Hop) as (Hip1 & _ & Hoff).
  pose proof (operand_advance f off Hwf Hop) as H5.
  split; [|split].
  - intros Hmax. apply add_id. destruct Hwf. in_range_lia.
  - intros Hget. exec_opcode Hget. by rewrite Hop.
  - intros v Hv popped.
    pose proof (index_lt _ _ _ Hv) as Hlt.
    destruct (Pop_ok f Hwf ltac:(lia)) as (v' & Hv' & Hpop).
    assert (v' = v) as -> by congruence.
    split; intros Hget; exec_opcode Hget; rewrite Hop; cbn [Frame.guard];
      rewrite Hpop; cbn [Frame.guard]; unfold Frame.advance;
      cbn [Frame.ip Frame.with_sp]; rewrite H5; by destruct (IsTruthy v).
Qed.

Lemma Get_Ok_advance (f : Frame.t) (b : Z) :
  wf f -> CodeChunk.Get (Frame.code f) (Frame.ip f) = Ok b ->
  GoInt.add (Frame.ip f) 1 = Frame.ip f + 1.
Proof.
  intros [_ _ Hip Hlen _]. unfold CodeChunk.Get.
  destruct (_ >=? _); [done|].
  destruct (index _ _) as [b'|] eqn:Hb; [|done]. intros _.
  apply index_lt in Hb. apply add_id. in_range_lia.
Qed.

Lemma take_after_store {A} (s : list A) (i : nat) (x : A) :
  (i < length s)%nat -> take (S i) (<[i := x]> s) = take i s ++ [x].
Proof.
  intros Hi. rewrite (take_S_r _ _ x) by by apply list_lookup_insert_eq.
  by rewrite take_insert_ge.
Qed.

(** C1. [INV n] on a stack that holds a function at depth [n] (hence at least
    [n + 1] values): the function is invoked on the [n] values above it, in
    stack order; the [n + 1] cells are removed, the returned value is pushed
    and the instruction pointer moves by 5. *)
Theorem INV_invokes_callee (f : Frame.t) (h h1 : Heap) (n : Z) (fn out : Value) :
  wf f ->
  CodeChunk.Get (Frame.code f) (Frame.ip f) = Ok (opcode_value OPINV) ->
  Frame.operand f = Ok n ->
  n + 1 <= Frame.sp f ->
  index (Frame.stack f) (Frame.sp f - 1 - n) = Some fn ->
  isFn fn = true ->
  Invoke fn (take (Z.to_nat n) (drop (Z.to_nat (Frame.sp f - n)) (Frame.stack f))) h
  = Some (out, h1) ->
  exists f',
    Frame.step Invoke f h = Frame.Continue f' h1 /\
    Frame.sp f' = Frame.sp f - (n + 1) + 1 /\
    take (Z.to_nat (Frame.sp f')) (Frame.stack f')
    = take (Z.to_nat (Frame.sp f - (n + 1))) (Frame.stack f) ++ [out] /\
    Frame.ip f' = Frame.ip f + 5.
Proof.
  intros Hwf Hget Hop Hdepth Hfn Hisfn Hinv.
  pose proof (operand_Ok f n Hwf Hop) as (_ & _ & Hn).
  pose proof (operand_advance f n Hwf Hop) as H5.
  pose proof Hwf as [Hsp Hb _ _ _].
  eexists. split; [|split; [|split]].
  - exec_opcode Hget. rewrite Hop. cbn [Frame.guard].
    rewrite (Nth_ok f n fn) by done. cbn [Frame.guard].
    rewrite Hisfn. cbn [negb].
    rewrite Mult_ok by (done || lia). cbn [Frame.guard].
    rewrite Hinv.
    replace (GoInt.add n 1) with (n + 1) by (symmetry; apply add_id; in_range_lia).
    rewrite Drop_ok by (done || lia). cbn [Frame.guard].
    rewrite Push_ok by (cbn [Frame.sp Frame.stack Frame.with_sp]; lia).
    cbn [Frame.guard]. unfold Frame.advance.
    cbn [Frame.ip Frame.sp Frame.stack Frame.with_sp Frame.with_stack].
    rewrite H5. reflexivity.
  - cbn. lia.
  - cbn [Frame.ip Frame.sp Frame.stack Frame.with_sp Frame.with_stack Frame.with_ip].
    replace (Z.to_nat (Frame.sp f - (n + 1) + 1))
      with (S (Z.to_nat (Frame.sp f - (n + 1)))) by lia.
    apply take_after_store. unfold len in *. lia.
  - reflexivity.
Qed.

(** C6. [STV] on a stack whose top is [v] and whose second value is a Var:
    both are popped, [v] becomes the root of the Var and the Var, not [v],
    is pushed back. The stack is one cell shorter, the Var is on top and
    its root is [v]; the cells below are as they were. *)
Theorem STV_sets_root (f : Frame.t) (h : Heap) (v : Value) (a : nat) :
  wf f ->
  CodeChunk.Get (Frame.code f) (Frame.ip f) = Ok (opcode_value OPSTV) ->
  index (Frame.stack f) (Frame.sp f - 1) = Some v ->
  index (Frame.stack f) (Frame.sp f - 2) = Some (Var a) ->
  exists f',
    Frame.step Invoke f h = Frame.Continue f' (SetRoot a v h) /\
    Deref a (SetRoot a v h) = v /\
    Frame.sp f' = Frame.sp f - 1 /\
    index (Frame.stack f') (Frame.sp f' - 1) = Some (Var a) /\
    take (Z.to_nat (Frame.sp f')) (Frame.stack f')
    = take (Z.to_nat (Frame.sp f - 1)) (Frame.stack f) /\
    Frame.ip f' = Frame.ip f + 1.
Proof.
  intros Hwf Hget Hv Hvar.
  pose proof (Get_Ok_advance f _ Hwf Hget) as H1.
  pose proof Hwf as [Hsp Hb Hip Hlen Hbytes].
  pose proof (index_lt _ _ _ Hvar) as Hlt.
  destruct (Pop_ok f Hwf ltac:(lia)) as (v' & Hv' & Hpop).
  assert (v' = v) as -> by congruence.
  set (f1 := Frame.with_sp f (Frame.sp f - 1)) in *.
  assert (Hwf1 : wf f1) by (constructor; cbn; try done; lia).
  destruct (Pop_ok f1 Hwf1 ltac:(cbn; lia)) as (w & Hw & Hpop1).
  cbn [f1 Frame.sp Frame.stack Frame.with_sp] in Hw, Hpop1.
  replace (Frame.sp f - 1 - 1) with (Frame.sp f - 2) in * by lia.
  assert (w = Var a) as -> by congruence.
  assert (Hsame : <[Z.to_nat (Frame.sp f - 2) := Var a]> (Frame.stack f)
                  = Frame.stack f)
    by (apply list_insert_id; by apply index_Some in Hvar as [_ ?]).
  eexists. split; [|split; [|split; [|split; [|split]]]].
  - exec_opcode Hget. rewrite Hpop. cbn [Frame.guard].
    fold f1. rewrite Hpop1. cbn [Frame.guard]. unfold f1.
    rewrite Push_ok by (cbn [Frame.sp Frame.stack Frame.with_sp]; lia).
    cbn [Frame.guard]. unfold Frame.advance.
    cbn [Frame.ip Frame.sp Frame.stack Frame.with_sp Frame.with_stack].
    rewrite Hsame, H1. reflexivity.
  - unfold Deref, SetRoot. cbn [roots]. by rewrite lookup_insert_eq.
  - cbn. lia.
  - cbn [Frame.ip Frame.sp Frame.stack Frame.with_sp Frame.with_stack Frame.with_ip].
    replace (Frame.sp f - 2 + 1 - 1) with (Frame.sp f - 2) by lia. done.
  - cbn [Frame.ip Frame.sp Frame.stack Frame.with_sp Frame.with_stack Frame.with_ip].
    f_equal. lia.
  - reflexivity.
Qed.

Lemma wf_with_sp (f : Frame.t) (s : Z) :
  wf f -> 0 <= s <= Frame.sp f -> wf (Frame.with_sp f s).
Proof. intros [? ? ? ? ?] Hs. constructor; cbn; try done; lia. Qed.

(** C7, amended. [PON n] on a stack of depth at least [n + 1] and at least
    2: the top [t] is saved, the [n] values below it are dropped and [t] is
    pushed back. The stack is [n] cells shorter, its top is [t], and the
    cells below the dropped ones are as they were. *)
Theorem PON_lifts_top (f : Frame.t) (h : Heap) (n : Z) (t : Value) :
  wf f ->
  CodeChunk.Get (Frame.code f) (Frame.ip f) = Ok (opcode_value OPPON) ->
  Frame.operand f = Ok n ->
  n + 1 <= Frame.sp f ->
  2 <= Frame.sp f ->
  index (Frame.stack f) (Frame.sp f - 1) = Some t ->
  exists f',
    Frame.step Invoke f h = Frame.Continue f' h /\
    Frame.sp f' = Frame.sp f - n /\
    index (Frame.stack f') (Frame.sp f' - 1) = Some t /\
    take (Z.to_nat (Frame.sp f - 1 - n)) (Frame.stack f')
    = take (Z.to_nat (Frame.sp f - 1 - n)) (Frame.stack f) /\
    Frame.ip f' = Frame.ip f + 5.
Proof.
  intros Hwf Hget Hop Hdepth Htwo Ht.
  pose proof (operand_Ok f n Hwf Hop) as (_ & _ & Hn).
  pose proof (operand_advance f n Hwf Hop) as H5.
  pose proof Hwf as [Hsp Hb _ _ _].
  destruct (Pop_ok f Hwf ltac:(lia)) as (t' & Ht' & Hpop).
  assert (t' = t) as -> by congruence.
  assert (Hwf1 : wf (Frame.with_sp f (Frame.sp f - 1)))
    by (apply wf_with_sp; [done | lia]).
  eexists. split; [|split; [|split; [|split]]].
  - exec_opcode Hget. rewrite Hpop. cbn [Frame.guard].
    change (Frame.operand (Frame.with_sp f (Frame.sp f - 1)))
      with (Frame.operand f).
    rewrite Hop. cbn [Frame.guard].
    rewrite Drop_ok by (done || (cbn [Frame.sp Frame.with_sp]; lia)).
    cbn [Frame.guard].
    rewrite Push_ok by (cbn [Frame.sp Frame.stack Frame.with_sp]; lia).
    cbn [Frame.guard]. unfold Frame.advance.
    cbn [Frame.ip Frame.sp Frame.stack Frame.with_sp Frame.with_stack].
    rewrite H5. reflexivity.
  - cbn. lia.
  - cbn [Frame.ip Frame.sp Frame.stack Frame.with_sp Frame.with_stack Frame.with_ip].
    replace (Frame.sp f - 1 - n + 1 - 1) with (Frame.sp f - 1 - n) by lia.
    apply index_Some. split; [lia|].
    apply list_lookup_insert_eq. unfold len in *. lia.
  - cbn [Frame.ip Frame.sp Frame.stack Frame.with_sp Frame.with_stack Frame.with_ip].
    by rewrite take_insert_ge.
  - reflexivity.
Qed.

Lemma decode_Some (z : Z) (op : Opcode) :
  decode z = Some op -> z = opcode_value op.
Proof.
  unfold decode. intros H.
  destruct z as [|p|p]; [| |done];
    repeat (first [ by injection H as <- | discriminate H
                  | destruct p as [p|p|] ]).
Qed.

Lemma step_Fail_kind (f : Frame.t) (h h' : Heap) (e : Error) :
  Frame.step Invoke f h = Frame.Fail e h' ->
  kind e = KindExecution \/
  exists n fraw,
    Frame.fetch f = Some (opcode_value OPINV) /\
    Frame.operand f = Ok n /\
    Frame.Nth f n = Ok fraw /\
    isFn fraw = false /\
    e = NewTypeError fraw "is not a function" None.
Proof.
  unfold Frame.step, Frame.guard.
  repeat case_match; intros; simplify_eq; try (left; reflexivity).
  right. match goal with H : decode _ = Some OPINV |- _ =>
    apply decode_Some in H as -> end.
  eexists _, _. repeat split; try done.
  by apply negb_true_iff.
Qed.

Lemma lor_below (a b k : Z) :
  0 < k -> 0 <= a < 2 ^ k -> 0 <= b < 2 ^ k -> 0 <= Z.lor a b < 2 ^ k.
Proof.
  intros Hk Ha Hb.
  assert (Hnn : 0 <= Z.lor a b) by (apply Z.lor_nonneg; lia).
  split; [done|].
  destruct (Z.eq_dec (Z.lor a b) 0) as [->|Hne]; [lia|].
  apply Z.log2_lt_pow2; [lia|]. rewrite Z.log2_lor by lia.
  apply Z.max_lub_lt.
  - destruct (Z.eq_dec a 0) as [->|]; [done|]. apply Z.log2_lt_pow2; lia.
  - destruct (Z.eq_dec b 0) as [->|]; [done|]. apply Z.log2_lt_pow2; lia.
Qed.

Lemma Uint32_below (b : list Z) (n : Z) :
  Forall (fun x => 0 <= x < 256) b -> CodeChunk.Uint32 b = Some n ->
  n < 2 ^ 32.
Proof.
  intros Hb Hn. unfold CodeChunk.Uint32 in Hn.
  destruct b as [|b0 [|b1 [|b2 [|b3 rest]]]]; try done.
  injection Hn as <-.
  apply Forall_cons in Hb as [H0 Hb]. apply Forall_cons in Hb as [H1 Hb].
  apply Forall_cons in Hb as [H2 Hb]. apply Forall_cons in Hb as [H3 _].
  rewrite !Z.shiftl_mul_pow2 by lia.
  repeat (apply lor_below; [lia| |]); lia.
Qed.

Lemma operand_below (f : Frame.t) (n : Z) :
  wf f -> Frame.operand f = Ok n -> 0 <= n < 2 ^ 32.
Proof.
  intros Hwf Hop. split; [by apply (operand_Ok f n Hwf Hop)|].
  destruct Hwf as [_ _ _ _ Hbytes].
  unfold Frame.operand, CodeChunk.Get32 in Hop.
  destruct (_ || _); [done|]. unfold slice in Hop.
  destruct (_ && _); [|done].
  destruct (CodeChunk.Uint32 _) as [m|] eqn:Hm; [|done].
  injection Hop as ->. apply Uint32_below in Hm; [done|].
  apply Forall_take, Forall_drop, Hbytes.
Qed.

Lemma Push_full (f : Frame.t) (v : Value) :
  Frame.defaultStackSize - 1 <= Frame.sp f ->
  Frame.Push f v = Err (NewExecutionError "stack overflow").
Proof.
  intros Hsp. unfold Frame.Push.
  destruct (Z.geb_spec (Frame.sp f) (Frame.defaultStackSize - 1)); [done|lia].
Qed.

Lemma Nth_underflow (f : Frame.t) (n : Z) :
  wf f -> 0 <= n < 2 ^ 32 -> Frame.sp f <= n ->
  Frame.Nth f n = Err (NewExecutionError "Nth: stack underflow").
Proof.
  intros [Hsp Hb _ _ _] Hn Hle. unfold Frame.Nth. go_int.
  destruct (Z.ltb_spec (Frame.sp f - 1 - n) 0); [done|lia].
Qed.

Lemma Drop_underflow (f : Frame.t) (n : Z) :
  wf f -> 0 <= n < 2 ^ 32 -> Frame.sp f = 0 \/ Frame.sp f < n ->
  Frame.Drop f n = Err (NewExecutionError "Drop: stack underflow").
Proof.
  intros [Hsp Hb _ _ _] Hn Hle. unfold Frame.Drop. go_int.
  destruct (Z.ltb_spec (Frame.sp f - 1) 0); [done|].
  cbn [Frame.sp Frame.with_sp].
  destruct (Z.ltb_spec (Frame.sp f - n) 0); [done|lia].
Qed.

(** Every execution fault makes the step fail with an [ExecutionError]. *)
Lemma ExecutionFault_fails (f : Frame.t) (h : Heap) :
  wf f -> ExecutionFault f ->
  exists e, Frame.step Invoke f h = Frame.Fail e h /\ kind e = KindExecution.
Proof.
  intros Hwf Hfault. pose proof Hwf as [Hsp Hb _ _ _].
  destruct Hfault as
    [ op e Hget Hop He | e Hget Hpos He | op Hget Hop H0 | op off Hget Hop Hoff H0
    | op Hget Hop H1 | Hget H0 | op n Hget Hop Hn Hle | n Hget Hn Hle
    | idx v Hget Hidx Hlt Hv Hfull | idx v Hget Hidx Hlt Hv Hfull
    | idx v Hget Hidx Hlt Hv Hfull | n v Hget Hn Hv Hfull
    | idx Hget Hidx Hge | idx Hget Hidx Hge | idx Hget Hidx Hge
    | v w Hget Hv Hw Hnot | w Hget Hw Hnot | v w Hget Hv Hw Hnot
    | b Hget Hb' ].
  - destruct op; try done; exec_opcode Hget; rewrite He; eexists; by split.
  - destruct (Pop_ok f Hwf Hpos) as (t & _ & Hpop).
    exec_opcode Hget. rewrite Hpop. cbn [Frame.guard].
    change (Frame.operand (Frame.with_sp f (Frame.sp f - 1)))
      with (Frame.operand f).
    rewrite He. eexists; by split.
  - destruct op; try done; exec_opcode Hget; rewrite (Pop_empty f H0);
      eexists; by split.
  - destruct Hop as [-> | ->]; exec_opcode Hget; rewrite Hoff; cbn [Frame.guard];
      rewrite (Pop_empty f H0); eexists; by split.
  - destruct (Pop_ok f Hwf ltac:(lia)) as (t & _ & Hpop).
    destruct Hop as [-> | ->]; exec_opcode Hget; rewrite Hpop; cbn [Frame.guard].
    + rewrite Pop_empty by (cbn; lia). eexists; by split.
    + cbn [Frame.sp Frame.with_sp]. rewrite H1. eexists; by split.
  - exec_opcode Hget. rewrite H0. eexists; by split.
  - pose proof (operand_below f n Hwf Hn) as Hbound.
    destruct Hop as [-> | ->]; exec_opcode Hget; rewrite Hn; cbn [Frame.guard];
      rewrite Nth_underflow by done; eexists; by split.
  - pose proof (operand_below f n Hwf Hn) as Hbound.
    destruct (Pop_ok f Hwf ltac:(lia)) as (t & _ & Hpop).
    exec_opcode Hget. rewrite Hpop. cbn [Frame.guard].
    change (Frame.operand (Frame.with_sp f (Frame.sp f - 1)))
      with (Frame.operand f).
    rewrite Hn. cbn [Frame.guard].
    rewrite Drop_underflow
      by (try (apply wf_with_sp; [done|lia]); try done; cbn; lia).
    eexists; by split.
  - exec_opcode Hget. rewrite Hidx. cbn [Frame.guard].
    destruct (Z.geb_spec idx (Frame.constsc f)); [lia|].
    rewrite Hv, Push_full by done. eexists; by split.
  - exec_opcode Hget. rewrite Hidx. cbn [Frame.guard].
    destruct (Z.geb_spec idx (Frame.argc f)); [lia|].
    rewrite Hv, Push_full by done. eexists; by split.
  - exec_opcode Hget. rewrite Hidx. cbn [Frame.guard].
    destruct (Z.geb_spec idx (len (Frame.closedOvers f))); [lia|].
    rewrite Hv, Push_full by done. eexists; by split.
  - pose proof (operand_below f n Hwf Hn) as Hbound.
    exec_opcode Hget. rewrite Hn. cbn [Frame.guard].
    rewrite (Nth_ok f n v) by (done || lia). cbn [Frame.guard].
    rewrite Push_full by done. eexists; by split.
  - exec_opcode Hget. rewrite Hidx. cbn [Frame.guard].
    destruct (Z.geb_spec idx (Frame.constsc f)); [|lia]. eexists; by split.
  - exec_opcode Hget. rewrite Hidx. cbn [Frame.guard].
    destruct (Z.geb_spec idx (Frame.argc f)); [|lia]. eexists; by split.
  - exec_opcode Hget. rewrite Hidx. cbn [Frame.guard].
    destruct (Z.geb_spec idx (len (Frame.closedOvers f))); [|lia].
    eexists; by split.
  - pose proof (index_lt _ _ _ Hw) as Hlt.
    destruct (Pop_ok f Hwf ltac:(lia)) as (v' & Hv' & Hpop).
    destruct (Pop_ok (Frame.with_sp f (Frame.sp f - 1))
                (wf_with_sp f (Frame.sp f - 1) Hwf ltac:(lia)) ltac:(cbn; lia))
      as (w' & Hw' & Hpop1).
    cbn [Frame.sp Frame.stack Frame.with_sp] in Hw'.
    replace (Frame.sp f - 1 - 1) with (Frame.sp f - 2) in Hw' by lia.
    assert (w' = w) as -> by congruence.
    exec_opcode Hget. rewrite Hpop. cbn [Frame.guard].
    rewrite Hpop1. cbn [Frame.guard].
    destruct w; try done; eexists; by split.
  - pose proof (index_lt _ _ _ Hw) as Hlt.
    exec_opcode Hget. go_int.
    destruct (Z.ltb_spec (Frame.sp f - 1) 0); [lia|]. rewrite Hw.
    destruct w; try done; eexists; by split.
  - pose proof (index_lt _ _ _ Hw) as Hlt.
    destruct (Pop_ok f Hwf ltac:(lia)) as (v' & Hv' & Hpop).
    exec_opcode Hget. rewrite Hpop. cbn [Frame.guard].
    cbn [Frame.sp Frame.stack Frame.with_sp]. go_int.
    replace (Frame.sp f - 1 - 1) with (Frame.sp f - 2) by lia.
    destruct (Z.ltb_spec (Frame.sp f - 2) 0); [lia|].
    rewrite Hw, Hnot. eexists; by split.
  - unfold Frame.step, Frame.fetch. rewrite Hget, Hb'. eexists; by split.
Qed.

Lemma InvokesNonFunction_fails (f : Frame.t) (h : Heap) (fraw : Value) :
  wf f -> InvokesNonFunction f fraw ->
  Frame.step Invoke f h
  = Frame.Fail (NewTypeError fraw "is not a function" None) h.
Proof.
  intros Hwf (n & Hget & Hn & Hfraw & Hnot).
  pose proof (operand_below f n Hwf Hn) as Hbound.
  exec_opcode Hget. rewrite Hn. cbn [Frame.guard].
  rewrite (Nth_ok f n fraw) by (done || lia). cbn [Frame.guard].
  by rewrite Hnot.
Qed.

Lemma fetch_opcode (f : Frame.t) (op : Opcode) :
  op <> OPNOP -> Frame.fetch f = Some (opcode_value op) -> next_opcode f op.
Proof.
  unfold Frame.fetch, next_opcode. intros Hop.
  destruct (CodeChunk.Get _ _) as [b|e|]; [by intros [= ->]| |done].
  intros [= H]. by destruct op.
Qed.

Lemma Nth_Ok_index (f : Frame.t) (n : Z) (v : Value) :
  wf f -> 0 <= n < 2 ^ 32 -> Frame.Nth f n = Ok v ->
  index (Frame.stack f) (Frame.sp f - 1 - n) = Some v.
Proof.
  intros [Hsp Hb _ _ _] Hn. unfold Frame.Nth. go_int.
  destruct (_ <? _); [done|]. destruct (index _ _); [|done]. by intros [= ->].
Qed.

Lemma Run_Fail (f : Frame.t) (h h' : Heap) (e : Error) (fuel : nat) :
  Frame.step Invoke f h = Frame.Fail e h' ->
  Frame.Run Invoke (S fuel) f h = Frame.Returns NIL (Some e) h'.
Proof. intros H. cbn [Frame.Run]. by rewrite H. Qed.

(** C4, amended. Every execution fault (failed operand fetch, stack under-
    or overflow, index out of the constants, arguments or captures, a value
    that is not a Var at [STV] or [LDV], not a compiled function at [PAK],
    an unknown opcode) makes [Run] return [NIL] and an error of kind
    [ExecutionError]; a value that is not a function at [INV] makes it return
    [NIL] and an error of kind [TypeError]; and these are the only kinds of
    error that a step of [Run] returns. *)
Theorem faults_abort_frame (f : Frame.t) (h : Heap) :
  wf f ->
  (ExecutionFault f ->
   exists e, kind e = KindExecution /\
     forall fuel, Frame.Run Invoke (S fuel) f h = Frame.Returns NIL (Some e) h) /\
  (forall fraw, InvokesNonFunction f fraw ->
   exists e, kind e = KindType /\
     forall fuel, Frame.Run Invoke (S fuel) f h = Frame.Returns NIL (Some e) h) /\
  (forall e h', Frame.step Invoke f h = Frame.Fail e h' ->
     (kind e = KindExecution \/
      kind e = KindType /\ exists fraw, InvokesNonFunction f fraw) /\
     forall fuel, Frame.Run Invoke (S fuel) f h = Frame.Returns NIL (Some e) h').
Proof.
  intros Hwf. split; [|split].
  - intros Hfault.
    destruct (ExecutionFault_fails f h Hwf Hfault) as (e & Hstep & Hkind).
    exists e. split; [done|]. intros fuel. by apply Run_Fail.
  - intros fraw Hinv. eexists. split; [|intros fuel; apply Run_Fail;
      by apply InvokesNonFunction_fails]. reflexivity.
  - intros e h' Hstep. split; [|intros fuel; by apply Run_Fail].
    destruct (step_Fail_kind f h h' e Hstep)
      as [Hk | (n & fraw & Hfetch & Hn & Hnth & Hnot & ->)]; [by left|].
    right. split; [reflexivity|]. exists fraw, n.
    pose proof (operand_below f n Hwf Hn) as Hbound.
    split; [by apply fetch_opcode|]. split; [done|].
    split; [by apply Nth_Ok_index|done].
Qed.

End Run.

(** ** Well-formedness is an invariant of [Run] *)

Lemma wf_NewFrame (c : CodeChunk.t) (a : list Value) (f : Frame.t) :
  len (CodeChunk.code c) <= GoInt.max_int ->
  Forall (fun b => 0 <= b < 256) (CodeChunk.code c) ->
  Frame.NewFrame c a = Some f -> wf f.
Proof.
  intros Hlen Hbytes. unfold Frame.NewFrame.
  destruct (Z.ltb_spec (CodeChunk.maxStack c) 0); [done|]. intros [= <-].
  constructor; cbn; try done; try in_range_lia.
  unfold len. lia.
Qed.

Lemma wf_advance (f : Frame.t) (n : Z) : wf f -> wf (Frame.advance f n).
Proof.
  intros [? ? ? ? ?]. constructor; cbn; try done. apply wrap_in_range.
Qed.

Lemma wf_Push (f f' : Frame.t) (v : Value) :
  wf f -> Frame.Push f v = Ok f' -> wf f'.
Proof.
  intros [Hsp Hb Hip Hlen Hbytes]. unfold Frame.Push, assign.
  destruct (Z.geb_spec (Frame.sp f) (Frame.defaultStackSize - 1)); [done|].
  destruct (Z.leb_spec 0 (Frame.sp f)); [|done].
  destruct (Z.ltb_spec (Frame.sp f) (len (Frame.stack f))); [|done].
  cbn [andb]. intros [= <-]. go_int.
  constructor; cbn; try done; unfold len in *; rewrite ?length_insert; lia.
Qed.

Lemma wf_Pop (f f' : Frame.t) (v : Value) :
  wf f -> Frame.Pop f = Ok (v, f') -> wf f'.
Proof.
  intros Hwf. pose proof Hwf as [Hsp Hb _ _ _]. unfold Frame.Pop.
  destruct (Z.eqb_spec (Frame.sp f) 0); [done|]. go_int.
  destruct (index _ _); [|done]. intros [= _ <-].
  apply wf_with_sp; [done|lia].
Qed.

Lemma wf_Drop (f f' : Frame.t) (n : Z) :
  wf f -> 0 <= n < 2 ^ 33 -> Frame.Drop f n = Ok f' -> wf f'.
Proof.
  intros Hwf Hn. pose proof Hwf as [Hsp Hb _ _ _]. unfold Frame.Drop. go_int.
  destruct (_ <? _); [done|]. cbn [Frame.sp Frame.with_sp].
  destruct (Z.ltb_spec (Frame.sp f - n) 0); [done|]. intros [= <-].
  apply wf_with_sp; [done|lia].
Qed.

Lemma Pop_operand (f f' : Frame.t) (v : Value) :
  Frame.Pop f = Ok (v, f') -> Frame.operand f' = Frame.operand f.
Proof.
  unfold Frame.Pop. destruct (_ =? _); [done|].
  destruct (index _ _); [|done]. by intros [= _ <-].
Qed.

Lemma wf_step Invoke (f f' : Frame.t) (h h' : Heap) :
  wf f -> Frame.step Invoke f h = Frame.Continue f' h' -> wf f'.
Proof.
  intros Hwf. unfold Frame.step, Frame.guard.
  repeat case_match; intros; simplify_eq;
    repeat match goal with
           | H : Frame.Pop _ = Ok (_, _) |- _ =>
               pose proof (Pop_operand _ _ _ H);
               apply wf_Pop in H; [|done]
           | H : Frame.Push _ _ = Ok _ |- _ => apply wf_Push in H; [|done]
           end;
    try (by apply wf_advance).
  - (* INV *)
    apply wf_advance.
    match goal with H : Frame.operand f = Ok ?n |- _ =>
      pose proof (operand_below f n Hwf H) end.
    match goal with H : Frame.Push _ _ = Ok _ |- _ =>
      eapply wf_Push; [|exact H] end.
    match goal with H : Frame.Drop f _ = Ok _ |- _ =>
      eapply wf_Drop; [exact Hwf| |exact H] end.
    go_int. lia.
  - (* PON *)
    apply wf_advance.
    match goal with H : Frame.operand ?g = Ok ?n, W : wf ?g |- _ =>
      pose proof (operand_below g n W H) end.
    match goal with H : Frame.Push _ _ = Ok _ |- _ =>
      eapply wf_Push; [|exact H] end.
    match goal with H : Frame.Drop _ _ = Ok _, W : wf _ |- _ =>
      eapply wf_Drop; [exact W| |exact H] end.
    lia.
  - (* LDV *)
    apply wf_advance. destruct Hwf as [? ? ? ? ?].
    match goal with H : assign _ _ _ = Some _ |- _ =>
      unfold assign in H; destruct (_ && _); [|done]; injection H as <- end.
    constructor; cbn; try done. unfold len in *. rewrite length_insert. lia.
Qed.

(** ** Runs of the example chunks *)

Ltac wf_concrete :=
  constructor;
    [ cbn; unfold len; cbn; lia
    | cbn; unfold Frame.defaultStackSize; lia
    | cbn; in_range_lia
    | vm_compute; discriminate
    | vm_compute; repeat constructor; discriminate ].

Lemma wf_frame_call : wf frame_call.
Proof. wf_concrete. Qed.

Example run_chunk_call :
  runChunk rt.invokeNative 3 chunk_call [] emptyHeap
  = Frame.OutOfFuel frame_call emptyHeap /\
  runChunk rt.invokeNative 5 chunk_call [] emptyHeap
  = Frame.Returns (Int 3) None emptyHeap.
Proof. split; reflexivity. Qed.

Lemma INV_invokes_callee_witness :
  exists f',
    Frame.step rt.invokeNative frame_call emptyHeap
    = Frame.Continue f' emptyHeap /\
    Frame.sp f' = 3 - (2 + 1) + 1 /\
    take (Z.to_nat (Frame.sp f')) (Frame.stack f') = [] ++ [Int 3] /\
    Frame.ip f' = 15 + 5.
Proof.
  exact (INV_invokes_callee rt.invokeNative frame_call emptyHeap emptyHeap 2
           (NativeFn "+") (Int 3) wf_frame_call eq_refl eq_refl
           ltac:(vm_compute; discriminate) eq_refl eq_refl eq_refl).
Defined.

Lemma wf_frame_branch : wf frame_branch.
Proof. wf_concrete. Qed.

Example run_chunk_branch :
  runChunk rt.invokeNative 1 chunk_branch [] emptyHeap
  = Frame.OutOfFuel frame_branch emptyHeap /\
  runChunk rt.invokeNative 4 chunk_branch [] emptyHeap
  = Frame.Returns (Int 2) None emptyHeap.
Proof. split; reflexivity. Qed.

Lemma branch_offsets_from_opcode_witness :
  Frame.step rt.invokeNative frame_branch emptyHeap
  = Frame.Continue (Frame.with_ip (Frame.with_sp frame_branch 0) 16) emptyHeap.
Proof.
  destruct (branch_offsets_from_opcode rt.invokeNative frame_branch emptyHeap 11
              wf_frame_branch eq_refl) as (_ & _ & Hbranch).
  destruct (Hbranch FALSE eq_refl) as [Hbrf _].
  exact (Hbrf eq_refl).
Defined.

Lemma wf_frame_def : wf frame_def.
Proof. wf_concrete. Qed.

Example run_chunk_def :
  runChunk rt.invokeNative 2 chunk_def [] emptyHeap
  = Frame.OutOfFuel frame_def emptyHeap /\
  runChunk rt.invokeNative 4 chunk_def [] emptyHeap
  = Frame.Returns (Var 7) None (SetRoot 7 (Int 42) emptyHeap).
Proof. split; reflexivity. Qed.

Lemma STV_sets_root_witness :
  exists f',
    Frame.step rt.invokeNative frame_def emptyHeap
    = Frame.Continue f' (SetRoot 7 (Int 42) emptyHeap) /\
    Deref 7 (SetRoot 7 (Int 42) emptyHeap) = Int 42 /\
    Frame.sp f' = 2 - 1 /\
    index (Frame.stack f') (Frame.sp f' - 1) = Some (Var 7) /\
    take (Z.to_nat (Frame.sp f')) (Frame.stack f') = [Var 7] /\
    Frame.ip f' = 10 + 1.
Proof.
  exact (STV_sets_root rt.invokeNative frame_def emptyHeap (Int 42) 7
           wf_frame_def eq_refl eq_refl eq_refl).
Defined.

Lemma wf_frame_let : wf frame_let.
Proof. wf_concrete. Qed.

Example run_chunk_let :
  runChunk rt.invokeNative 3 chunk_let [] emptyHeap
  = Frame.OutOfFuel frame_let emptyHeap /\
  runChunk rt.invokeNative 5 chunk_let [] emptyHeap
  = Frame.Returns (Int 30) None emptyHeap.
Proof. split; reflexivity. Qed.

Lemma PON_lifts_top_witness :
  exists f',
    Frame.step rt.invokeNative frame_let emptyHeap
    = Frame.Continue f' emptyHeap /\
    Frame.sp f' = 3 - 2 /\
    index (Frame.stack f') (Frame.sp f' - 1) = Some (Int 30) /\
    take (Z.to_nat (3 - 1 - 2)) (Frame.stack f') = [] /\
    Frame.ip f' = 15 + 5.
Proof.
  exact (PON_lifts_top rt.invokeNative frame_let emptyHeap 2 (Int 30)
           wf_frame_let eq_refl eq_refl
           ltac:(vm_compute; discriminate) ltac:(vm_compute; discriminate)
           eq_refl).
Defined.

Lemma wf_frame_let_empty : wf frame_let_empty.
Proof. wf_concrete. Qed.

(** C7 as stated fails on [PON 0] over a stack of depth 1: the depth is
    [n + 1], yet [Drop] finds the stack empty after the [Pop] of the top and
    reports an underflow, so the step fails instead of keeping the stack. *)
Lemma PON_zero_on_single_value :
  runChunk rt.invokeNative 1 chunk_let_empty [] emptyHeap
  = Frame.OutOfFuel frame_let_empty emptyHeap /\
  wf frame_let_empty /\
  next_opcode frame_let_empty OPPON /\
  Frame.operand frame_let_empty = Ok 0 /\
  0 + 1 <= Frame.sp frame_let_empty /\
  Frame.step rt.invokeNative frame_let_empty emptyHeap
  = Frame.Fail
      (ExecutionError "PON drop"
         (Some (ExecutionError "Drop: stack underflow" None)))
      emptyHeap /\
  ~ exists f' h',
      Frame.step rt.invokeNative frame_let_empty emptyHeap
      = Frame.Continue f' h'.
Proof.
  split; [reflexivity|]. split; [apply wf_frame_let_empty|].
  split; [reflexivity|]. split; [reflexivity|].
  split; [vm_compute; discriminate|]. split; [reflexivity|].
  intros (f' & h' & H). vm_compute in H. discriminate H.
Qed.

Lemma wf_frame_call_integer : wf frame_call_integer.
Proof. wf_concrete. Qed.

(** C4 as stated fails at [INV] on a value that is not a function: the
    error that [Run] returns is a [TypeError]. *)
Lemma INV_on_integer_is_TypeError :
  runChunk rt.invokeNative 1 chunk_call_integer [] emptyHeap
  = Frame.OutOfFuel frame_call_integer emptyHeap /\
  InvokesNonFunction frame_call_integer (Int 5) /\
  runChunk rt.invokeNative 2 chunk_call_integer [] emptyHeap
  = Frame.Returns NIL (Some (TypeError (Int 5) "is not a function" None))
      emptyHeap /\
  kind (TypeError (Int 5) "is not a function" None) <> KindExecution.
Proof.
  split; [reflexivity|]. split; [by exists 0|]. split; [reflexivity|done].
Qed.

Lemma faults_abort_frame_witness :
  (exists e, kind e = KindExecution /\
     forall fuel, Frame.Run rt.invokeNative (S fuel) frame_let_empty emptyHeap
                  = Frame.Returns NIL (Some e) emptyHeap) /\
  (exists e, kind e = KindType /\
     forall fuel, Frame.Run rt.invokeNative (S fuel) frame_call_integer emptyHeap
                  = Frame.Returns NIL (Some e) emptyHeap).
Proof.
  split.
  - apply (faults_abort_frame rt.invokeNative frame_let_empty emptyHeap
             wf_frame_let_empty).
    apply (fault_underflow_PON _ 0); [reflexivity | reflexivity | by left].
  - apply (faults_abort_frame rt.invokeNative frame_call_integer emptyHeap
             wf_frame_call_integer) with (fraw := Int 5).
    by exists 0.
Defined.

(** ** The two defects of the loop *)

(** Past the end of the code [Get] reports an error that [Run] drops: the
    zero byte it reads instead is [NOP], and the loop goes on. Once the
    instruction pointer has wrapped around to a negative value the fetch
    panics. In neither case does [Run] return. *)
Lemma Run_past_end Invoke (fuel : nat) :
  forall (f : Frame.t) (h : Heap),
    0 <= CodeChunk.length (Frame.code f) ->
    GoInt.in_range (Frame.ip f) ->
    CodeChunk.length (Frame.code f) <= Frame.ip f \/ Frame.ip f < 0 ->
    returned (Frame.Run Invoke fuel f h) = false.
Proof.
  induction fuel as [|fuel IH]; intros f h Hlen Hip Hpast; [reflexivity|].
  cbn [Frame.Run]. unfold Frame.step, Frame.fetch, CodeChunk.Get.
  destruct (Z.geb_spec (Frame.ip f) (CodeChunk.length (Frame.code f)))
    as [Hge|Hlt].
  - change (decode 0) with (Some OPNOP). cbv beta iota.
    apply IH; cbn; [done | apply wrap_in_range |].
    destruct (Z.eq_dec (Frame.ip f) GoInt.max_int) as [->|Hne].
    + right. by vm_compute.
    + left. rewrite add_id by in_range_lia. lia.
  - destruct Hpast as [?|Hneg]; [lia|].
    unfold index. destruct (Z.ltb_spec (Frame.ip f) 0); [done|lia].
Qed.

(** C3: the code at a chunk without [RET]. After [LDC 0; POP] the
    instruction pointer is 6, the length of the code; [Get] fails there, and
    whatever the number of further iterations [Run] has not returned. *)
Theorem Run_without_RET_never_returns :
  runChunk rt.invokeNative 2 chunk_no_return [] emptyHeap
  = Frame.OutOfFuel frame_no_return emptyHeap /\
  Frame.ip frame_no_return = CodeChunk.Length chunk_no_return /\
  CodeChunk.Get chunk_no_return (Frame.ip frame_no_return)
  = Err (NewExecutionError "bytecode fetch out of bounds") /\
  forall Invoke fuel,
    returned (runChunk Invoke fuel chunk_no_return [] emptyHeap) = false.
Proof.
  split; [reflexivity|]. split; [reflexivity|]. split; [reflexivity|].
  intros Invoke [|[|fuel]]; [reflexivity..|].
  change (runChunk Invoke (S (S fuel)) chunk_no_return [] emptyHeap)
    with (Frame.Run Invoke fuel frame_no_return emptyHeap).
  apply Run_past_end; [by vm_compute | cbn; in_range_lia | left; by vm_compute].
Qed.

(** C2: the code at a chunk whose declared maximum depth is 1. The stack of
    its frame has one cell; the second [LDC] pushes at depth 1, below the
    bound 31 that [Push] checks, and the store into the stack panics: no
    error is returned. *)
Theorem Push_past_maxStack_panics :
  CodeChunk.maxStack chunk_two_pushes = 1 /\
  runChunk rt.invokeNative 1 chunk_two_pushes [] emptyHeap
  = Frame.OutOfFuel frame_two_pushes emptyHeap /\
  len (Frame.stack frame_two_pushes) = CodeChunk.maxStack chunk_two_pushes /\
  Frame.sp frame_two_pushes = CodeChunk.maxStack chunk_two_pushes /\
  (forall v, Frame.Push frame_two_pushes v = Panic) /\
  forall Invoke fuel,
    runChunk Invoke (S (S fuel)) chunk_two_pushes [] emptyHeap = Frame.Panics.
Proof.
  repeat (split; [reflexivity|]). reflexivity.
Qed.

(** * Further properties of the code *)

(** ** Building and reading chunks *)

Lemma byte_at (u k n : Z) :
  0 <= k -> 0 <= n ->
  Z.testbit (Z.shiftl (Z.land (Z.shiftr u k) 255) k) n
  = (k <=? n) && (n <? k + 8) && Z.testbit u n.
Proof.
  intros Hk Hn. change 255 with (Z.ones 8). rewrite Z.land_ones by lia.
  rewrite Z.shiftl_spec by lia.
  destruct (Z.leb_spec k n); cbn [andb].
  - destruct (Z.ltb_spec n (k + 8)); cbn [andb].
    + rewrite Z.mod_pow2_bits_low by lia. rewrite Z.shiftr_spec by lia.
      f_equal. lia.
    + apply Z.mod_pow2_bits_high. lia.
  - apply Z.testbit_neg_r. lia.
Qed.

Lemma bytes_join (u : Z) :
  0 <= u < 2 ^ 32 ->
  Z.lor (Z.lor (Z.land u 255) (Z.shiftl (Z.land (Z.shiftr u 8) 255) 8))
        (Z.lor (Z.shiftl (Z.land (Z.shiftr u 16) 255) 16)
               (Z.shiftl (Z.land (Z.shiftr u 24) 255) 24)) = u.
Proof.
  intros Hu. apply Z.bits_inj'. intros n Hn.
  replace (Z.land u 255) with (Z.shiftl (Z.land (Z.shiftr u 0) 255) 0)
    by (by rewrite Z.shiftr_0_r, Z.shiftl_0_r).
  rewrite !Z.lor_spec, !byte_at by lia.
  destruct (Z.ltb_spec n 32) as [Hlt|Hge].
  - destruct (Z.leb_spec 8 n), (Z.leb_spec 16 n), (Z.leb_spec 24 n),
      (Z.leb_spec 0 n), (Z.ltb_spec n (0 + 8)), (Z.ltb_spec n (8 + 8)),
      (Z.ltb_spec n (16 + 8)), (Z.ltb_spec n (24 + 8));
      try lia; cbn; rewrite ?orb_false_r; reflexivity.
  - assert (Z.testbit u n = false) as ->.
    { destruct (Z.eq_dec u 0) as [->|]; [apply Z.bits_0|].
      apply Z.bits_above_log2; [lia|].
      apply Z.lt_le_trans with 32; [|lia]. apply Z.log2_lt_pow2; lia. }
    by rewrite !andb_false_r.
Qed.

Lemma Uint32_PutUint32 (v : Z) (rest : list Z) :
  CodeChunk.Uint32 (CodeChunk.PutUint32 v ++ rest) = Some (v mod 2 ^ 32).
Proof.
  unfold CodeChunk.PutUint32, CodeChunk.Uint32. cbn [app]. f_equal.
  apply bytes_join. apply Z.mod_pos_bound. lia.
Qed.

Lemma PutUint32_bytes (v : Z) :
  Forall (fun b => 0 <= b < 256) (CodeChunk.PutUint32 v).
Proof.
  unfold CodeChunk.PutUint32. change 255 with (Z.ones 8).
  rewrite !Z.land_ones by lia.
  repeat constructor; apply Z.mod_pos_bound; lia.
Qed.

Lemma len_app {A} (s1 s2 : list A) : len (s1 ++ s2) = len s1 + len s2.
Proof. unfold len. rewrite length_app. lia. Qed.

Lemma len_nonneg {A} (s : list A) : 0 <= len s.
Proof. unfold len. lia. Qed.

Lemma len_PutUint32 (v : Z) : len (CodeChunk.PutUint32 v) = 4.
Proof. reflexivity. Qed.

Lemma index_app_l {A} (s1 s2 : list A) (i : Z) :
  i < len s1 -> index (s1 ++ s2) i = index s1 i.
Proof.
  intros Hi. unfold index. destruct (Z.ltb_spec i 0); [done|].
  apply lookup_app_l. unfold len in Hi. lia.
Qed.

Lemma index_app_r {A} (s1 s2 : list A) (i : Z) :
  0 <= i -> index (s1 ++ s2) (len s1 + i) = index s2 i.
Proof.
  intros Hi. unfold index, len.
  destruct (Z.ltb_spec (Z.of_nat (length s1) + i) 0); [lia|].
  destruct (Z.ltb_spec i 0); [lia|].
  rewrite lookup_app_r by lia. f_equal. lia.
Qed.

(** What [Get32] computes on a well-formed chunk, in one equation. *)
Lemma Get32_in_bounds (c : CodeChunk.t) (idx : Z) :
  wf_chunk c -> 0 <= idx -> idx + 4 <= len (CodeChunk.code c) ->
  CodeChunk.Get32 c idx
  = match CodeChunk.Uint32 (drop (Z.to_nat idx) (CodeChunk.code c)) with
    | Some n => Ok n
    | None => Panic
    end.
Proof.
  intros [Hlength Hlen _] H0 H4. unfold CodeChunk.Get32.
  rewrite Hlength. rewrite add_id by in_range_lia.
  destruct (Z.geb_spec idx (len (CodeChunk.code c))); [lia|].
  destruct (Z.gtb_spec (idx + 4) (len (CodeChunk.code c))); [lia|].
  cbn [orb]. rewrite slice_ok by lia.
  rewrite take_ge; [done|]. rewrite length_drop. unfold len. lia.
Qed.

(** X1. A 32-bit operand written by [Append32] is read back by [Get32] at
    the address where it was appended, as [val mod 2^32]: a value of
    [0 .. 2^32 - 1] comes back as it is, a negative one comes back as a
    positive number. The length grows by 4 and the chunk stays well formed. *)
Theorem Get32_Append32 (c : CodeChunk.t) (val : Z) :
  wf_chunk c ->
  len (CodeChunk.code c) + 4 <= GoInt.max_int ->
  CodeChunk.Get32 (CodeChunk.Append32 c val) (CodeChunk.Length c)
  = Ok (val mod 2 ^ 32) /\
  (val mod 2 ^ 32 = val <-> 0 <= val < 2 ^ 32) /\
  CodeChunk.Length (CodeChunk.Append32 c val) = CodeChunk.Length c + 4 /\
  wf_chunk (CodeChunk.Append32 c val).
Proof.
  intros Hwf Hmax. pose proof Hwf as [Hlength Hlen Hbytes].
  assert (Hwf' : wf_chunk (CodeChunk.Append32 c val)).
  { constructor; cbn; [done| |].
    - rewrite len_app, len_PutUint32. lia.
    - apply Forall_app. split; [done | apply PutUint32_bytes]. }
  split; [|split; [|split; [|done]]].
  - rewrite Get32_in_bounds; try done; unfold CodeChunk.Length; rewrite Hlength.
    + cbn [CodeChunk.code CodeChunk.Append32]. unfold len.
      rewrite Nat2Z.id, drop_app_length.
      rewrite <- (app_nil_r (CodeChunk.PutUint32 val)).
      by rewrite Uint32_PutUint32.
    + apply len_nonneg.
    + cbn. rewrite len_app, len_PutUint32. lia.
  - pose proof (Z.mod_pos_bound val (2 ^ 32) ltac:(lia)).
    split; [lia | apply Z.mod_small].
  - unfold CodeChunk.Length. cbn. rewrite len_app, len_PutUint32. lia.
Qed.

Lemma wf_chunk_NewCodeChunk (cs : list Value) :
  wf_chunk (CodeChunk.NewCodeChunk cs).
Proof. constructor; cbn; [done | vm_compute; discriminate | constructor]. Qed.

Lemma Get32_Append32_witness :
  CodeChunk.Get32 (CodeChunk.Append32 (CodeChunk.NewCodeChunk []) (-1)) 0
  = Ok 4294967295.
Proof.
  exact (proj1 (Get32_Append32 (CodeChunk.NewCodeChunk []) (-1)
                  (wf_chunk_NewCodeChunk [])
                  ltac:(vm_compute; discriminate))).
Defined.

Lemma Get_ext (c c' : CodeChunk.t) (i : Z) :
  CodeChunk.length c' = CodeChunk.length c ->
  index (CodeChunk.code c') i = index (CodeChunk.code c) i ->
  CodeChunk.Get c' i = CodeChunk.Get c i.
Proof. intros Hl Hi. unfold CodeChunk.Get. by rewrite Hl, Hi. Qed.

Lemma lookup_splice {A} (s p : list A) (a i : nat) :
  (a + length p <= length s)%nat ->
  (i < a \/ a + length p <= i)%nat ->
  (take a s ++ p ++ drop (a + length p) s) !! i = s !! i.
Proof.
  intros Hfit Hi.
  assert (Htake : length (take a s) = a) by (rewrite length_take; lia).
  destruct Hi as [Hi|Hi].
  - rewrite lookup_app_l by lia. by apply lookup_take_lt.
  - rewrite lookup_app_r by lia. rewrite lookup_app_r by lia.
    rewrite lookup_drop. f_equal. lia.
Qed.

(** X2. Back-patching: [Update32] at an address whose four bytes lie within
    the code overwrites exactly these bytes. [Get32] at that address then
    reads [value mod 2^32], every other byte and the length are as before,
    and the chunk stays well formed. *)
Theorem Get32_Update32 (c : CodeChunk.t) (address value : Z) :
  wf_chunk c ->
  0 <= address ->
  address + 4 <= CodeChunk.Length c ->
  exists c',
    CodeChunk.Update32 c address value = Some c' /\
    CodeChunk.Get32 c' address = Ok (value mod 2 ^ 32) /\
    CodeChunk.Length c' = CodeChunk.Length c /\
    (forall i, i < address \/ address + 4 <= i ->
       CodeChunk.Get c' i = CodeChunk.Get c i) /\
    wf_chunk c'.
Proof.
  intros Hwf H0 H4. pose proof Hwf as [Hlength Hlen Hbytes].
  unfold CodeChunk.Length in *. rewrite Hlength in H4.
  unfold CodeChunk.Update32. rewrite add_id by in_range_lia.
  destruct (Z.leb_spec 0 address); [|lia].
  destruct (Z.leb_spec address (address + 4)); [|lia].
  destruct (Z.leb_spec (address + 4) (len (CodeChunk.code c))); [|lia].
  cbn [andb]. eexists. split; [reflexivity|].
  set (c' := CodeChunk.mk _ _ _ _).
  assert (Htake : length (take (Z.to_nat address) (CodeChunk.code c))
                  = Z.to_nat address)
    by (rewrite length_take; unfold len in *; lia).
  assert (Hlen' : len (CodeChunk.code c') = len (CodeChunk.code c)).
  { unfold c'. cbn [CodeChunk.code]. rewrite !len_app, len_PutUint32.
    unfold len in *. rewrite Htake, length_drop. lia. }
  assert (Hwf' : wf_chunk c').
  { constructor;
      [rewrite Hlen'; exact Hlength | rewrite Hlen'; exact Hlen |].
    unfold c'. cbn [CodeChunk.code]. repeat (apply Forall_app; split);
      [by apply Forall_take | apply PutUint32_bytes | by apply Forall_drop]. }
  split; [|split; [done|split; [|done]]].
  - rewrite Get32_in_bounds by (done || lia). unfold c'.
    cbn [CodeChunk.code]. rewrite <- Htake at 1. rewrite drop_app_length.
    by rewrite Uint32_PutUint32.
  - intros i Hi. apply Get_ext; [done|]. unfold c'. cbn [CodeChunk.code].
    unfold index. destruct (Z.ltb_spec i 0); [done|].
    apply (lookup_splice _ (CodeChunk.PutUint32 value));
      change (length (CodeChunk.PutUint32 value)) with 4%nat;
      unfold len in *; lia.
Qed.

Ltac zcmp := vm_compute; first [reflexivity | discriminate].

Ltac wf_chunk_concrete :=
  constructor;
    [ reflexivity | vm_compute; discriminate
    | vm_compute; repeat constructor; discriminate ].

Lemma Get32_Update32_witness :
  exists c',
    CodeChunk.Update32 (emit32 (CodeChunk.NewCodeChunk []) OPJMP 0) 1 7 = Some c' /\
    CodeChunk.Get32 c' 1 = Ok (7 mod 2 ^ 32) /\
    CodeChunk.Length c' = CodeChunk.Length (emit32 (CodeChunk.NewCodeChunk []) OPJMP 0) /\
    (forall i, i < 1 \/ 1 + 4 <= i ->
       CodeChunk.Get c' i
       = CodeChunk.Get (emit32 (CodeChunk.NewCodeChunk []) OPJMP 0) i) /\
    wf_chunk c'.
Proof.
  apply Get32_Update32; [wf_chunk_concrete | lia | vm_compute; discriminate].
Defined.

(** X3. [AppendChunk] keeps the code of the receiver at its addresses and
    places the code of the other chunk behind it: an opcode or operand at
    address [i] of [o] is read at address [Length c + i]. The length is the
    sum of the lengths, the maximum stack depth is the larger of the two,
    the constants are those of the receiver, and the chunk stays well
    formed. *)
Theorem AppendChunk_relocates (c o : CodeChunk.t) :
  wf_chunk c -> wf_chunk o ->
  CodeChunk.Length c + CodeChunk.Length o <= GoInt.max_int ->
  let co := CodeChunk.AppendChunk c o in
  wf_chunk co /\
  CodeChunk.Length co = CodeChunk.Length c + CodeChunk.Length o /\
  CodeChunk.maxStack co = Z.max (CodeChunk.maxStack c) (CodeChunk.maxStack o) /\
  CodeChunk.consts co = CodeChunk.consts c /\
  (forall i, i < CodeChunk.Length c -> CodeChunk.Get co i = CodeChunk.Get c i) /\
  (forall i, 0 <= i < CodeChunk.Length o ->
     CodeChunk.Get co (CodeChunk.Length c + i) = CodeChunk.Get o i) /\
  (forall i, 0 <= i -> i + 4 <= CodeChunk.Length c ->
     CodeChunk.Get32 co i = CodeChunk.Get32 c i) /\
  (forall i, 0 <= i -> i + 4 <= CodeChunk.Length o ->
     CodeChunk.Get32 co (CodeChunk.Length c + i) = CodeChunk.Get32 o i).
Proof.
  intros Hc Ho Hmax co.
  pose proof Hc as [Hlc Hnc Hbc]. pose proof Ho as [Hlo Hno Hbo].
  unfold CodeChunk.Length in *.
  pose proof (len_nonneg (CodeChunk.code c)) as H0c.
  pose proof (len_nonneg (CodeChunk.code o)) as H0o.
  assert (Hlen : CodeChunk.length co = CodeChunk.length c + CodeChunk.length o).
  { cbn. rewrite Hlo. apply add_id. in_range_lia. }
  assert (Hcode : CodeChunk.code co = CodeChunk.code c ++ CodeChunk.code o)
    by reflexivity.
  assert (Hwf : wf_chunk co).
  { constructor; rewrite Hcode.
    - rewrite Hlen, len_app. lia.
    - rewrite len_app. lia.
    - by apply Forall_app. }
  split; [done|]. split; [done|]. split.
  { cbn. destruct (Z.gtb_spec (CodeChunk.maxStack o) (CodeChunk.maxStack c)); lia. }
  split; [done|]. split; [|split; [|split]].
  - intros i Hi. unfold CodeChunk.Get. rewrite Hlen, Hcode.
    destruct (Z.geb_spec i (CodeChunk.length c)); [lia|].
    destruct (Z.geb_spec i (CodeChunk.length c + CodeChunk.length o)); [lia|].
    by rewrite index_app_l by lia.
  - intros i Hi. unfold CodeChunk.Get. rewrite Hlen, Hcode.
    destruct (Z.geb_spec (CodeChunk.length c + i)
                (CodeChunk.length c + CodeChunk.length o)); [lia|].
    destruct (Z.geb_spec i (CodeChunk.length o)); [lia|].
    rewrite Hlc. by rewrite index_app_r by lia.
  - intros i H0 H4.
    rewrite !Get32_in_bounds by (done || rewrite ?Hcode, ?len_app; lia).
    rewrite Hcode. rewrite drop_app_le by (unfold len in *; lia).
    unfold CodeChunk.Uint32.
    destruct (drop (Z.to_nat i) (CodeChunk.code c))
      as [|b0 [|b1 [|b2 [|b3 rest]]]] eqn:Hd; try done;
      apply (f_equal length) in Hd; rewrite length_drop in Hd;
      cbn [length] in Hd; unfold len in *; lia.
  - intros i H0 H4.
    rewrite !Get32_in_bounds by (done || rewrite ?Hcode, ?len_app; lia).
    rewrite Hcode, Hlc. rewrite drop_app_ge by (unfold len; lia).
    replace (Z.to_nat (len (CodeChunk.code c) + i) - length (CodeChunk.code c))%nat
      with (Z.to_nat i) by (unfold len; lia).
    done.
Qed.

Lemma AppendChunk_relocates_witness :
  CodeChunk.Get32 (CodeChunk.AppendChunk chunk_call chunk_def)
    (CodeChunk.Length chunk_call + 6)
  = CodeChunk.Get32 chunk_def 6.
Proof.
  assert (Hc : wf_chunk chunk_call) by wf_chunk_concrete.
  assert (Ho : wf_chunk chunk_def) by wf_chunk_concrete.
  assert (Hmax : CodeChunk.Length chunk_call + CodeChunk.Length chunk_def
                 <= GoInt.max_int) by (vm_compute; discriminate).
  destruct (AppendChunk_relocates chunk_call chunk_def Hc Ho Hmax)
    as (_ & _ & _ & _ & _ & _ & _ & Hrel).
  apply Hrel; vm_compute; discriminate.
Defined.

(** X4. The bounds of the two readers on a well-formed chunk. [Get] gives
    the byte at an address within the code, the error "bytecode fetch out of
    bounds" at or past the length, and panics on a negative address. [Get32]
    gives a number of [0 .. 2^32 - 1] when its four bytes lie within the
    code, the error "bytecode wide fetch out of bounds" when they reach past
    the length, and panics on a negative address that passes its check. *)
Theorem fetch_bounds (c : CodeChunk.t) (idx : Z) :
  wf_chunk c ->
  GoInt.min_int <= idx -> idx + 4 <= GoInt.max_int ->
  (CodeChunk.Length c <= idx ->
   CodeChunk.Get c idx = Err (NewExecutionError "bytecode fetch out of bounds")) /\
  (0 <= idx < CodeChunk.Length c ->
   exists b, CodeChunk.Get c idx = Ok b /\ 0 <= b < 256 /\
             index (CodeChunk.code c) idx = Some b) /\
  (idx < 0 -> CodeChunk.Get c idx = Panic) /\
  (CodeChunk.Length c < idx + 4 ->
   CodeChunk.Get32 c idx
   = Err (NewExecutionError "bytecode wide fetch out of bounds")) /\
  (0 <= idx -> idx + 4 <= CodeChunk.Length c ->
   exists n, CodeChunk.Get32 c idx = Ok n /\ 0 <= n < 2 ^ 32) /\
  (idx < 0 -> idx + 4 <= CodeChunk.Length c -> CodeChunk.Get32 c idx = Panic).
Proof.
  intros Hwf Hmin Hmax. pose proof Hwf as [Hlength Hlen Hbytes].
  pose proof (len_nonneg (CodeChunk.code c)) as H0.
  unfold CodeChunk.Length. rewrite Hlength.
  split; [|split; [|split; [|split; [|split]]]].
  - intros Hge. unfold CodeChunk.Get. rewrite Hlength.
    destruct (Z.geb_spec idx (len (CodeChunk.code c))); [done|lia].
  - intros Hin. unfold CodeChunk.Get. rewrite Hlength.
    destruct (Z.geb_spec idx (len (CodeChunk.code c))); [lia|].
    destruct (index_of_len (CodeChunk.code c) idx Hin) as [b Hb].
    rewrite Hb. exists b. split; [done|]. split; [|done].
    apply index_Some in Hb as [_ Hb].
    by apply (Forall_lookup_1 _ _ _ _ Hbytes Hb).
  - intros Hneg. unfold CodeChunk.Get, index. rewrite Hlength.
    destruct (Z.geb_spec idx (len (CodeChunk.code c))); [lia|].
    destruct (Z.ltb_spec idx 0); [done|lia].
  - intros Hpast. unfold CodeChunk.Get32. rewrite Hlength.
    rewrite add_id by in_range_lia.
    destruct (Z.gtb_spec (idx + 4) (len (CodeChunk.code c))); [|lia].
    by rewrite orb_true_r.
  - intros Hidx H4. rewrite Get32_in_bounds by done.
    destruct (CodeChunk.Uint32 _) as [n|] eqn:Hn.
    + exists n. split; [done|].
      assert (Hb : Forall (fun b => 0 <= b < 256)
                     (drop (Z.to_nat idx) (CodeChunk.code c)))
        by by apply Forall_drop.
      split; [by apply (Uint32_nonneg _ _ Hb Hn) | by apply (Uint32_below _ _ Hb Hn)].
    + exfalso. unfold CodeChunk.Uint32 in Hn.
      destruct (drop (Z.to_nat idx) (CodeChunk.code c))
        as [|b0 [|b1 [|b2 [|b3 rest]]]] eqn:Hd; try done;
        apply (f_equal length) in Hd; rewrite length_drop in Hd;
        cbn [length] in Hd; unfold len in *; lia.
  - intros Hneg H4. unfold CodeChunk.Get32. rewrite Hlength.
    rewrite add_id by in_range_lia.
    destruct (Z.geb_spec idx (len (CodeChunk.code c))); [lia|].
    destruct (Z.gtb_spec (idx + 4) (len (CodeChunk.code c))); [lia|].
    cbn [orb]. unfold slice. destruct (Z.leb_spec 0 idx); [lia|done].
Qed.

Lemma fetch_bounds_witness :
  CodeChunk.Get32 chunk_call (-1) = Panic /\
  CodeChunk.Get32 chunk_call 18
  = Err (NewExecutionError "bytecode wide fetch out of bounds") /\
  exists n, CodeChunk.Get32 chunk_call 16 = Ok n /\ 0 <= n < 2 ^ 32.
Proof.
  assert (Hc : wf_chunk chunk_call) by wf_chunk_concrete.
  split; [|split].
  - apply (fetch_bounds chunk_call (-1) Hc); zcmp.
  - apply (fetch_bounds chunk_call 18 Hc); zcmp.
  - apply (fetch_bounds chunk_call 16 Hc); zcmp.
Defined.

Lemma decode_None (b : Z) : 15 <= b -> decode b = None.
Proof.
  intros Hb. destruct b as [|p|p]; [lia| |lia].
  unfold decode.
  repeat (first [ reflexivity | lia | destruct p as [p|p|] ]).
Qed.

(** X5. The table of names and the [switch] of [Run] agree on which bytes
    are opcodes: [OpcodeToString] answers "???" exactly for the bytes that
    [Run] rejects as an unknown instruction, and no two opcodes share a
    name. *)
Theorem OpcodeToString_names_opcodes (b : Z) :
  0 <= b < 256 ->
  (OpcodeToString b = "???"%string <-> decode b = None) /\
  (forall op1 op2,
     OpcodeToString (opcode_value op1) = OpcodeToString (opcode_value op2) ->
     op1 = op2).
Proof.
  intros Hb. split.
  - destruct (Z.lt_ge_cases b 15) as [Hlt|Hge].
    + assert (b = 0 \/ b = 1 \/ b = 2 \/ b = 3 \/ b = 4 \/ b = 5 \/ b = 6 \/
              b = 7 \/ b = 8 \/ b = 9 \/ b = 10 \/ b = 11 \/ b = 12 \/
              b = 13 \/ b = 14) as Hcases by lia.
      repeat (destruct Hcases as [->|Hcases];
              [split; intros H; vm_compute in H; discriminate H|]).
      subst. split; intros H; vm_compute in H; discriminate H.
    + rewrite decode_None by done. split; [done|]. intros _.
      unfold OpcodeToString.
      change (len ["NOP"; "LDC"; "LDA"; "INV"; "RET"; "BRT"; "BRF"; "JMP";
                   "POP"; "PON"; "DPN"; "STV"; "LDV"; "LDK"; "PAK"]%string)
        with 15.
      destruct (Z.ltb_spec b 15); [lia|done].
  - intros op1 op2. by destruct op1, op2.
Qed.

Lemma OpcodeToString_names_opcodes_witness :
  OpcodeToString 15 = "???"%string <-> decode 15 = None.
Proof.
  exact (proj1 (OpcodeToString_names_opcodes 15 ltac:(lia))).
Defined.

(** ** The operand stack *)

Lemma frame_eta (f : Frame.t) :
  Frame.mk (Frame.stack f) (Frame.args f) (Frame.closedOvers f) (Frame.argc f)
    (Frame.consts f) (Frame.constsc f) (Frame.code f) (Frame.ip f) (Frame.sp f)
  = f.
Proof. by destruct f. Qed.

(** X6. [Push] then [Pop]: on a well-formed frame with room for one more
    value, the pushed value is the one popped, the stack pointer is back
    where it was and the cells below it are untouched. *)
Theorem Pop_after_Push (f : Frame.t) (v : Value) :
  wf f ->
  Frame.sp f < len (Frame.stack f) ->
  Frame.sp f < Frame.defaultStackSize - 1 ->
  exists f1 f2,
    Frame.Push f v = Ok f1 /\
    Frame.sp f1 = Frame.sp f + 1 /\
    Frame.Pop f1 = Ok (v, f2) /\
    Frame.sp f2 = Frame.sp f /\
    take (Z.to_nat (Frame.sp f)) (Frame.stack f2)
    = take (Z.to_nat (Frame.sp f)) (Frame.stack f).
Proof.
  intros Hwf Hroom Hbound. pose proof Hwf as [Hsp Hb Hip Hlen Hbytes].
  eexists _, _. split; [apply Push_ok; lia|]. split; [reflexivity|].
  split; [|split].
  - unfold Frame.Pop.
    cbn [Frame.sp Frame.stack Frame.with_sp Frame.with_stack].
    destruct (Z.eqb_spec (Frame.sp f + 1) 0); [lia|]. go_int.
    replace (Frame.sp f + 1 - 1) with (Frame.sp f) by lia.
    assert (Hv : index (<[Z.to_nat (Frame.sp f) := v]> (Frame.stack f))
                   (Frame.sp f) = Some v).
    { apply index_Some. split; [lia|].
      apply list_lookup_insert_eq. unfold len in *. lia. }
    rewrite Hv. reflexivity.
  - reflexivity.
  - cbn [Frame.sp Frame.stack Frame.with_sp Frame.with_stack].
    by rewrite take_insert_ge.
Qed.

Lemma wf_frame_fresh : wf frame_fresh.
Proof. wf_concrete. Qed.

Lemma Pop_after_Push_witness :
  exists f1 f2,
    Frame.Push frame_fresh (Int 9) = Ok f1 /\
    Frame.sp f1 = 0 + 1 /\
    Frame.Pop f1 = Ok (Int 9, f2) /\
    Frame.sp f2 = 0 /\
    take (Z.to_nat 0) (Frame.stack f2) = take (Z.to_nat 0) [NIL; NIL; NIL].
Proof.
  exact (Pop_after_Push frame_fresh (Int 9) wf_frame_fresh
           ltac:(zcmp) ltac:(zcmp)).
Defined.

(** X7. [Pop] then [Push] of the popped value: [Pop] leaves the cell as it
    is, so pushing the value back gives the very frame one started from. *)
Theorem Push_after_Pop (f : Frame.t) :
  wf f ->
  0 < Frame.sp f ->
  exists v f1,
    Frame.Pop f = Ok (v, f1) /\
    index (Frame.stack f) (Frame.sp f - 1) = Some v /\
    Frame.sp f1 = Frame.sp f - 1 /\
    Frame.Push f1 v = Ok f.
Proof.
  intros Hwf Hpos. pose proof Hwf as [Hsp Hb Hip Hlen Hbytes].
  destruct (Pop_ok f Hwf Hpos) as (v & Hv & Hpop).
  exists v. eexists. split; [exact Hpop|]. split; [done|]. split; [reflexivity|].
  rewrite Push_ok by (cbn [Frame.sp Frame.stack Frame.with_sp]; lia).
  cbn [Frame.sp Frame.stack Frame.with_sp]. f_equal.
  rewrite list_insert_id by (by apply index_Some in Hv as [_ ?]).
  replace (Frame.sp f - 1 + 1) with (Frame.sp f) by lia.
  unfold Frame.with_sp, Frame.with_stack. cbn. apply frame_eta.
Qed.

Lemma Push_after_Pop_witness :
  exists v f1,
    Frame.Pop frame_let = Ok (v, f1) /\
    index (Frame.stack frame_let) (3 - 1) = Some v /\
    Frame.sp f1 = 3 - 1 /\
    Frame.Push f1 v = Ok frame_let.
Proof.
  exact (Push_after_Pop frame_let wf_frame_let ltac:(zcmp)).
Defined.

(** X8. [Mult] and [Nth] see the same cells: [Mult start count] is the
    list, bottom first, of the [count] values that [Nth] finds at the depths
    [start + count - 1] down to [start]. A count of 0 is accepted and gives
    the empty list; only a negative count is the error "Mult: count 0 or
    negative". *)
Theorem Mult_lists_Nth (f : Frame.t) (start count : Z) :
  wf f ->
  0 <= start -> 0 <= count -> start + count <= Frame.sp f ->
  exists a,
    Frame.Mult f start count = Ok a /\
    len a = count /\
    (count = 0 -> a = []) /\
    (forall i, 0 <= i < count ->
       exists v, index a i = Some v /\
                 Frame.Nth f (start + count - 1 - i) = Ok v) /\
    (forall neg, neg < 0 ->
       Frame.Mult f start neg
       = Err (NewExecutionError "Mult: count 0 or negative")).
Proof.
  intros Hwf H0 Hc Hfit. pose proof Hwf as [Hsp Hb Hip Hlen Hbytes].
  assert (Hmult : Frame.Mult f start count
                  = Ok (take (Z.to_nat count)
                          (drop (Z.to_nat (Frame.sp f - start - count))
                             (Frame.stack f)))).
  { unfold Frame.Mult. destruct (Z.ltb_spec count 0); [lia|]. go_int.
    destruct (Z.ltb_spec (Frame.sp f - start - count) 0); [lia|].
    rewrite slice_ok by lia. do 3 f_equal. lia. }
  eexists. split; [exact Hmult|]. split; [|split; [|split]].
  - unfold len in *. rewrite length_take, length_drop. lia.
  - by intros ->.
  - intros i Hi.
    destruct (lookup_lt_is_Some_2 (Frame.stack f)
                (Z.to_nat (Frame.sp f - start - count + i))) as [v Hv];
      [unfold len in *; lia|].
    exists v. split.
    + apply index_Some. split; [lia|].
      rewrite lookup_take_lt by lia. rewrite lookup_drop.
      rewrite <- Hv. f_equal. lia.
    + apply Nth_ok; [done|lia|]. apply index_Some. split; [lia|].
      rewrite <- Hv. f_equal. lia.
  - intros neg Hneg. unfold Frame.Mult.
    destruct (Z.ltb_spec neg 0); [done|lia].
Qed.

Lemma Mult_lists_Nth_witness :
  exists a,
    Frame.Mult frame_call 0 2 = Ok a /\
    len a = 2 /\
    (2 = 0 -> a = []) /\
    (forall i, 0 <= i < 2 ->
       exists v, index a i = Some v /\
                 Frame.Nth frame_call (0 + 2 - 1 - i) = Ok v) /\
    (forall neg, neg < 0 ->
       Frame.Mult frame_call 0 neg
       = Err (NewExecutionError "Mult: count 0 or negative")).
Proof.
  exact (Mult_lists_Nth frame_call 0 2 wf_frame_call
           ltac:(zcmp) ltac:(zcmp) ltac:(zcmp)).
Defined.

Lemma pops_ok (k : nat) :
  forall f, wf f -> Z.of_nat k <= Frame.sp f ->
    pops k f = Ok (Frame.with_sp f (Frame.sp f - Z.of_nat k)).
Proof.
  induction k as [|k IH]; intros f Hwf Hk.
  - cbn [pops]. rewrite Z.sub_0_r. unfold Frame.with_sp.
    by rewrite frame_eta.
  - cbn [pops]. destruct (Pop_ok f Hwf ltac:(lia)) as (v & _ & ->).
    rewrite IH by (try (apply wf_with_sp; [done|lia]); cbn; lia).
    unfold Frame.with_sp. cbn. do 2 f_equal. lia.
Qed.

Lemma pops_underflow (k : nat) :
  forall f, wf f -> Frame.sp f < Z.of_nat k ->
    pops k f = Err (NewExecutionError "stack underflow").
Proof.
  induction k as [|k IH]; intros f Hwf Hk.
  - destruct Hwf. lia.
  - cbn [pops]. destruct (Z.eq_dec (Frame.sp f) 0) as [H0|Hne].
    + by rewrite Pop_empty.
    + pose proof (wf_sp f Hwf) as Hsp.
      destruct (Pop_ok f Hwf ltac:(lia)) as (v & _ & ->).
      apply IH; [apply wf_with_sp; [done|lia] | cbn; lia].
Qed.

(** X9. [Drop n] is [n] times [Pop], with one exception. With at least one
    value on the stack, [Drop n] and [n] pops give the same frame when
    [n] values are there, and both fail when they are not. On the empty
    stack no pop at all succeeds, yet [Drop 0] is an underflow error. *)
Theorem Drop_is_pops (f : Frame.t) (n : Z) :
  wf f ->
  0 <= n < 2 ^ 32 ->
  (1 <= Frame.sp f -> n <= Frame.sp f ->
   Frame.Drop f n = Ok (Frame.with_sp f (Frame.sp f - n)) /\
   pops (Z.to_nat n) f = Frame.Drop f n) /\
  (Frame.sp f < n ->
   Frame.Drop f n = Err (NewExecutionError "Drop: stack underflow") /\
   pops (Z.to_nat n) f = Err (NewExecutionError "stack underflow")) /\
  (Frame.sp f = 0 ->
   pops 0 f = Ok f /\
   Frame.Drop f 0 = Err (NewExecutionError "Drop: stack underflow")).
Proof.
  intros Hwf Hn. split; [|split].
  - intros H1 Hle. rewrite Drop_ok by (done || lia). split; [done|].
    rewrite pops_ok by (done || lia). do 2 f_equal. lia.
  - intros Hlt. split.
    + apply Drop_underflow; [done|done|lia].
    + apply pops_underflow; [done|lia].
  - intros H0. split; [done|]. apply Drop_underflow; [done|lia|by left].
Qed.

Lemma Drop_is_pops_witness :
  Frame.Drop frame_let 2 = Ok (Frame.with_sp frame_let (3 - 2)) /\
  pops (Z.to_nat 2) frame_let = Frame.Drop frame_let 2.
Proof.
  apply (Drop_is_pops frame_let 2 wf_frame_let ltac:(split; zcmp)); zcmp.
Defined.

(** ** The instructions *)

Ltac exec_op Hget :=
  unfold Frame.step, Frame.fetch; rewrite Hget, decode_opcode_value;
  cbv beta iota.

Ltac frame_fields :=
  cbn [Frame.ip Frame.sp Frame.stack Frame.code Frame.args Frame.consts
       Frame.closedOvers Frame.argc Frame.constsc
       Frame.with_sp Frame.with_stack Frame.with_ip].

Section Instructions.

Variable Invoke : Value -> list Value -> Heap -> option (Value * Heap).

Lemma step_STV (f : Frame.t) (h : Heap) (v : Value) (a : nat) :
  wf f ->
  next_opcode f OPSTV ->
  index (Frame.stack f) (Frame.sp f - 1) = Some v ->
  index (Frame.stack f) (Frame.sp f - 2) = Some (Var a) ->
  Frame.step Invoke f h
  = Frame.Continue
      (Frame.with_ip (Frame.with_sp f (Frame.sp f - 1)) (Frame.ip f + 1))
      (SetRoot a v h).
Proof.
  intros Hwf Hget Hv Hvar. pose proof Hwf as [Hsp Hb Hip Hlen Hbytes].
  pose proof (Get_Ok_advance f _ Hwf Hget) as H1.
  pose proof (index_lt _ _ _ Hvar) as Hlt.
  destruct (Pop_ok f Hwf ltac:(lia)) as (v' & Hv' & Hpop).
  assert (v' = v) as -> by congruence.
  destruct (Pop_ok (Frame.with_sp f (Frame.sp f - 1))
              (wf_with_sp f (Frame.sp f - 1) Hwf ltac:(lia)) ltac:(cbn; lia))
    as (w & Hw & Hpop1).
  cbn [Frame.sp Frame.stack Frame.with_sp] in Hw, Hpop1.
  replace (Frame.sp f - 1 - 1) with (Frame.sp f - 2) in * by lia.
  assert (w = Var a) as -> by congruence.
  exec_op Hget. rewrite Hpop. cbn [Frame.guard].
  rewrite Hpop1. cbn [Frame.guard].
  rewrite Push_ok by (frame_fields; lia).
  cbn [Frame.guard]. unfold Frame.advance. frame_fields.
  rewrite list_insert_id by (by apply index_Some in Hvar as [_ ?]).
  rewrite H1. do 2 f_equal.
  unfold Frame.with_ip, Frame.with_sp, Frame.with_stack. cbn.
  do 2 f_equal. lia.
Qed.

Lemma step_LDV (f : Frame.t) (h : Heap) (a : nat) :
  wf f ->
  next_opcode f OPLDV ->
  index (Frame.stack f) (Frame.sp f - 1) = Some (Var a) ->
  Frame.step Invoke f h
  = Frame.Continue
      (Frame.with_ip
         (Frame.with_stack f
            (<[Z.to_nat (Frame.sp f - 1) := Deref a h]> (Frame.stack f)))
         (Frame.ip f + 1))
      h.
Proof.
  intros Hwf Hget Hv. pose proof Hwf as [Hsp Hb Hip Hlen Hbytes].
  pose proof (Get_Ok_advance f _ Hwf Hget) as H1.
  pose proof (index_lt _ _ _ Hv) as Hlt.
  exec_op Hget. go_int.
  destruct (Z.ltb_spec (Frame.sp f - 1) 0); [lia|].
  rewrite Hv, assign_ok by lia. unfold Frame.advance. frame_fields.
  by rewrite H1.
Qed.

(** X10. The four loads, on a well-formed frame with room for one more
    value, that is, whose depth is below the size of its stack and below
    the bound 31 of [Push]. [LDC], [LDA] and [LDK] with an index within the
    constants, the arguments or the captured values, and [DPN n] with a
    value at depth [n], push that value: the stack is one cell longer with
    the value on top, the cells below are as they were, and the instruction
    pointer moves by 5. *)
Theorem loads_push (f : Frame.t) (h : Heap) (idx : Z) (v : Value) :
  wf f ->
  Frame.sp f < len (Frame.stack f) ->
  Frame.sp f < Frame.defaultStackSize - 1 ->
  Frame.operand f = Ok idx ->
  let pushed :=
    Frame.with_ip
      (Frame.with_sp
         (Frame.with_stack f (<[Z.to_nat (Frame.sp f) := v]> (Frame.stack f)))
         (Frame.sp f + 1))
      (Frame.ip f + 5) in
  take (Z.to_nat (Frame.sp pushed)) (Frame.stack pushed)
  = take (Z.to_nat (Frame.sp f)) (Frame.stack f) ++ [v] /\
  (next_opcode f OPLDC -> idx < Frame.constsc f ->
   index (Frame.consts f) idx = Some v ->
   Frame.step Invoke f h = Frame.Continue pushed h) /\
  (next_opcode f OPLDA -> idx < Frame.argc f ->
   index (Frame.args f) idx = Some v ->
   Frame.step Invoke f h = Frame.Continue pushed h) /\
  (next_opcode f OPLDK -> idx < len (Frame.closedOvers f) ->
   index (Frame.closedOvers f) idx = Some v ->
   Frame.step Invoke f h = Frame.Continue pushed h) /\
  (next_opcode f OPDPN ->
   index (Frame.stack f) (Frame.sp f - 1 - idx) = Some v ->
   Frame.step Invoke f h = Frame.Continue pushed h).
Proof.
  intros Hwf Hroom Hbound Hop pushed.
  pose proof Hwf as [Hsp Hb Hip Hlen Hbytes].
  pose proof (operand_advance f idx Hwf Hop) as H5.
  pose proof (operand_below f idx Hwf Hop) as Hidx.
  assert (Hpush : Frame.guard (Frame.Push f v) "" h
                    (fun f1 => Frame.Continue (Frame.advance f1 5) h)
                  = Frame.Continue pushed h).
  { rewrite Push_ok by lia. cbn [Frame.guard]. unfold Frame.advance.
    frame_fields. by rewrite H5. }
  unfold Frame.guard in Hpush.
  split; [|split; [|split; [|split]]].
  - unfold pushed. frame_fields.
    replace (Z.to_nat (Frame.sp f + 1)) with (S (Z.to_nat (Frame.sp f))) by lia.
    apply take_after_store. unfold len in *. lia.
  - intros Hget Hlt Hv. exec_op Hget. rewrite Hop. cbn [Frame.guard].
    destruct (Z.geb_spec idx (Frame.constsc f)); [lia|]. rewrite Hv.
    unfold Frame.guard. destruct (Frame.Push f v); done.
  - intros Hget Hlt Hv. exec_op Hget. rewrite Hop. cbn [Frame.guard].
    destruct (Z.geb_spec idx (Frame.argc f)); [lia|]. rewrite Hv.
    unfold Frame.guard. destruct (Frame.Push f v); done.
  - intros Hget Hlt Hv. exec_op Hget. rewrite Hop. cbn [Frame.guard].
    destruct (Z.geb_spec idx (len (Frame.closedOvers f))); [lia|]. rewrite Hv.
    unfold Frame.guard. destruct (Frame.Push f v); done.
  - intros Hget Hv. exec_op Hget. rewrite Hop. cbn [Frame.guard].
    rewrite (Nth_ok f idx v) by (done || lia).
    unfold Frame.guard. destruct (Frame.Push f v); done.
Qed.

(** X11. [LDV] replaces the Var on top of the stack by its root value, in
    place: the depth and the cells below are as they were, and the
    instruction pointer moves by 1. *)
Theorem LDV_derefs_top (f : Frame.t) (h : Heap) (a : nat) :
  wf f ->
  next_opcode f OPLDV ->
  index (Frame.stack f) (Frame.sp f - 1) = Some (Var a) ->
  exists f',
    Frame.step Invoke f h = Frame.Continue f' h /\
    Frame.sp f' = Frame.sp f /\
    index (Frame.stack f') (Frame.sp f' - 1) = Some (Deref a h) /\
    take (Z.to_nat (Frame.sp f - 1)) (Frame.stack f')
    = take (Z.to_nat (Frame.sp f - 1)) (Frame.stack f) /\
    Frame.ip f' = Frame.ip f + 1.
Proof.
  intros Hwf Hget Hv. pose proof Hwf as [Hsp Hb Hip Hlen Hbytes].
  pose proof (index_lt _ _ _ Hv) as Hlt.
  eexists. split; [by apply step_LDV|]. split; [reflexivity|].
  split; [|split; [|reflexivity]].
  - frame_fields. apply index_Some. split; [lia|].
    apply list_lookup_insert_eq. unfold len in *. lia.
  - frame_fields. by rewrite take_insert_ge.
Qed.

(** X12. [PAK] pops a value and appends it to the captured values of the
    compiled function that is then on top of the stack. That function stays
    on top, its captured values are the old ones followed by the value, the
    captured values of every other function and the roots of the Vars are
    as they were, and the instruction pointer moves by 1. *)
Theorem PAK_appends_capture (f : Frame.t) (h : Heap) (v : Value) (a : nat) :
  wf f ->
  next_opcode f OPPAK ->
  index (Frame.stack f) (Frame.sp f - 1) = Some v ->
  index (Frame.stack f) (Frame.sp f - 2) = Some (Func a) ->
  exists h',
    Frame.step Invoke f h
    = Frame.Continue
        (Frame.with_ip (Frame.with_sp f (Frame.sp f - 1)) (Frame.ip f + 1)) h' /\
    closedOversOf a h' = closedOversOf a h ++ [v] /\
    (forall b, b <> a -> closedOversOf b h' = closedOversOf b h) /\
    roots h' = roots h.
Proof.
  intros Hwf Hget Hv Hfn. pose proof Hwf as [Hsp Hb Hip Hlen Hbytes].
  pose proof (Get_Ok_advance f _ Hwf Hget) as H1.
  pose proof (index_lt _ _ _ Hfn) as Hlt.
  destruct (Pop_ok f Hwf ltac:(lia)) as (v' & Hv' & Hpop).
  assert (v' = v) as -> by congruence.
  exists (appendClosedOver a v h). split; [|split; [|split]].
  - exec_op Hget. rewrite Hpop. cbn [Frame.guard]. frame_fields. go_int.
    replace (Frame.sp f - 1 - 1) with (Frame.sp f - 2) by lia.
    destruct (Z.ltb_spec (Frame.sp f - 2) 0); [lia|].
    rewrite Hfn. cbn [isFunc negb]. unfold Frame.advance. frame_fields.
    by rewrite H1.
  - unfold closedOversOf at 1, appendClosedOver. cbn [captures].
    by rewrite lookup_insert_eq.
  - intros b Hb'. unfold closedOversOf at 1, appendClosedOver. cbn [captures].
    by rewrite lookup_insert_ne.
  - reflexivity.
Qed.

(** X13. [RET] returns the value on top of the stack and no error, whatever
    lies below it, and leaves the heap as it is. *)
Theorem RET_returns_top (f : Frame.t) (h : Heap) (v : Value) (fuel : nat) :
  wf f ->
  next_opcode f OPRET ->
  index (Frame.stack f) (Frame.sp f - 1) = Some v ->
  Frame.Run Invoke (S fuel) f h = Frame.Returns v None h.
Proof.
  intros Hwf Hget Hv. pose proof (index_lt _ _ _ Hv) as Hlt.
  pose proof Hwf as [Hsp _ _ _ _].
  destruct (Pop_ok f Hwf ltac:(lia)) as (v' & Hv' & Hpop).
  assert (v' = v) as -> by congruence.
  cbn [Frame.Run]. exec_op Hget. by rewrite Hpop.
Qed.

(** X14. A definition followed by a use: [STV] then [LDV], on a stack whose
    top is [v] above a Var, leave [v] on top of a stack that is one cell
    shorter, in the heap where the root of the Var is [v]; the instruction
    pointer has moved by 2. *)
Theorem STV_then_LDV (f : Frame.t) (h : Heap) (v : Value) (a : nat) :
  wf f ->
  next_opcode f OPSTV ->
  CodeChunk.Get (Frame.code f) (Frame.ip f + 1) = Ok (opcode_value OPLDV) ->
  index (Frame.stack f) (Frame.sp f - 1) = Some v ->
  index (Frame.stack f) (Frame.sp f - 2) = Some (Var a) ->
  exists f',
    Frame.Run Invoke 2 f h = Frame.OutOfFuel f' (SetRoot a v h) /\
    Frame.sp f' = Frame.sp f - 1 /\
    index (Frame.stack f') (Frame.sp f' - 1) = Some v /\
    take (Z.to_nat (Frame.sp f - 2)) (Frame.stack f')
    = take (Z.to_nat (Frame.sp f - 2)) (Frame.stack f) /\
    Frame.ip f' = Frame.ip f + 2.
Proof.
  intros Hwf Hstv Hldv Hv Hvar. pose proof Hwf as [Hsp Hb Hip Hlen Hbytes].
  pose proof (index_lt _ _ _ Hvar) as Hlt.
  set (f1 := Frame.with_ip (Frame.with_sp f (Frame.sp f - 1)) (Frame.ip f + 1)).
  assert (Hstep1 : Frame.step Invoke f h = Frame.Continue f1 (SetRoot a v h))
    by (by apply step_STV).
  assert (Hwf1 : wf f1) by (by eapply wf_step).
  assert (Htop1 : index (Frame.stack f1) (Frame.sp f1 - 1) = Some (Var a)).
  { unfold f1. frame_fields.
    by replace (Frame.sp f - 1 - 1) with (Frame.sp f - 2) by lia. }
  pose proof (step_LDV f1 (SetRoot a v h) a Hwf1 Hldv Htop1) as Hstep2.
  eexists. split; [|split; [|split; [|split]]].
  - cbn [Frame.Run]. rewrite Hstep1, Hstep2. reflexivity.
  - reflexivity.
  - unfold f1. frame_fields. apply index_Some. split; [lia|].
    rewrite list_lookup_insert_eq by (unfold len in *; lia).
    f_equal. unfold Deref, SetRoot. cbn [roots]. by rewrite lookup_insert_eq.
  - unfold f1. frame_fields. rewrite take_insert_ge by lia. done.
  - unfold f1. frame_fields. lia.
Qed.

End Instructions.

Example run_more_chunks :
  runChunk rt.invokeNative 0 chunk_call [] emptyHeap
  = Frame.OutOfFuel frame_fresh emptyHeap /\
  runChunk rt.invokeNative 4 chunk_call [] emptyHeap
  = Frame.OutOfFuel frame_call_done emptyHeap /\
  runChunk rt.invokeNative 1 chunk_use [] emptyHeap
  = Frame.OutOfFuel frame_use emptyHeap /\
  runChunk rt.invokeNative 2 chunk_closure [] emptyHeap
  = Frame.OutOfFuel frame_closure emptyHeap /\
  runChunk rt.invokeNative 2 chunk_def_use [] emptyHeap
  = Frame.OutOfFuel frame_def_use emptyHeap /\
  runChunk rt.invokeNative 5 chunk_def_use [] emptyHeap
  = Frame.Returns (Int 42) None (SetRoot 7 (Int 42) emptyHeap).
Proof. repeat split; reflexivity. Qed.

Lemma loads_push_witness :
  Frame.step rt.invokeNative frame_fresh emptyHeap
  = Frame.Continue
      (Frame.with_ip
         (Frame.with_sp
            (Frame.with_stack frame_fresh [NativeFn "+"; NIL; NIL]) 1) 5)
      emptyHeap.
Proof.
  destruct (loads_push rt.invokeNative frame_fresh emptyHeap 0 (NativeFn "+")
              wf_frame_fresh ltac:(zcmp) ltac:(zcmp) eq_refl)
    as (_ & Hldc & _).
  exact (Hldc eq_refl ltac:(zcmp) eq_refl).
Defined.

Lemma wf_frame_use : wf frame_use.
Proof. wf_concrete. Qed.

Lemma LDV_derefs_top_witness :
  exists f',
    Frame.step rt.invokeNative frame_use (SetRoot 7 (Int 42) emptyHeap)
    = Frame.Continue f' (SetRoot 7 (Int 42) emptyHeap) /\
    Frame.sp f' = 1 /\
    index (Frame.stack f') (Frame.sp f' - 1)
    = Some (Deref 7 (SetRoot 7 (Int 42) emptyHeap)) /\
    take (Z.to_nat (1 - 1)) (Frame.stack f') = [] /\
    Frame.ip f' = 5 + 1.
Proof.
  exact (LDV_derefs_top rt.invokeNative frame_use (SetRoot 7 (Int 42) emptyHeap)
           7 wf_frame_use eq_refl eq_refl).
Defined.

Lemma wf_frame_closure : wf frame_closure.
Proof. wf_concrete. Qed.

Lemma PAK_appends_capture_witness :
  exists h',
    Frame.step rt.invokeNative frame_closure emptyHeap
    = Frame.Continue (Frame.with_ip (Frame.with_sp frame_closure (2 - 1)) (10 + 1)) h' /\
    closedOversOf 3 h' = closedOversOf 3 emptyHeap ++ [Int 5] /\
    (forall b, b <> 3%nat -> closedOversOf b h' = closedOversOf b emptyHeap) /\
    roots h' = roots emptyHeap.
Proof.
  exact (PAK_appends_capture rt.invokeNative frame_closure emptyHeap (Int 5) 3
           wf_frame_closure eq_refl eq_refl eq_refl).
Defined.

Lemma wf_frame_call_done : wf frame_call_done.
Proof. wf_concrete. Qed.

Lemma RET_returns_top_witness :
  Frame.Run rt.invokeNative 1 frame_call_done emptyHeap
  = Frame.Returns (Int 3) None emptyHeap.
Proof.
  exact (RET_returns_top rt.invokeNative frame_call_done emptyHeap (Int 3) 0
           wf_frame_call_done eq_refl eq_refl).
Defined.

Lemma wf_frame_def_use : wf frame_def_use.
Proof. wf_concrete. Qed.

Lemma STV_then_LDV_witness :
  exists f',
    Frame.Run rt.invokeNative 2 frame_def_use emptyHeap
    = Frame.OutOfFuel f' (SetRoot 7 (Int 42) emptyHeap) /\
    Frame.sp f' = 2 - 1 /\
    index (Frame.stack f') (Frame.sp f' - 1) = Some (Int 42) /\
    take (Z.to_nat (2 - 2)) (Frame.stack f') = [] /\
    Frame.ip f' = 10 + 2.
Proof.
  exact (STV_then_LDV rt.invokeNative frame_def_use emptyHeap (Int 42) 7
           wf_frame_def_use eq_refl eq_refl eq_refl eq_refl).
Defined.

(** ** Invariants of [Run] *)

Lemma same_program_refl (f : Frame.t) : same_program f f.
Proof. by constructor. Qed.

Lemma same_program_trans (f g k : Frame.t) :
  same_program f g -> same_program g k -> same_program f k.
Proof. intros [] []. constructor; congruence. Qed.

Lemma same_program_advance (f : Frame.t) (n : Z) :
  same_program f (Frame.advance f n).
Proof. by constructor. Qed.

Lemma Push_keeps (f f' : Frame.t) (v : Value) :
  Frame.Push f v = Ok f' -> same_program f f' /\ Frame.ip f' = Frame.ip f.
Proof.
  unfold Frame.Push, assign. destruct (_ >=? _); [done|].
  destruct (_ && _); [|done]. intros [= <-].
  split; [|done]. constructor; cbn; try done.
  unfold len. by rewrite length_insert.
Qed.

Lemma Pop_keeps (f f' : Frame.t) (v : Value) :
  Frame.Pop f = Ok (v, f') -> same_program f f' /\ Frame.ip f' = Frame.ip f.
Proof.
  unfold Frame.Pop. destruct (_ =? _); [done|].
  destruct (index _ _); [|done]. intros [= _ <-]. by split.
Qed.

Lemma Drop_keeps (f f' : Frame.t) (n : Z) :
  Frame.Drop f n = Ok f' -> same_program f f' /\ Frame.ip f' = Frame.ip f.
Proof.
  unfold Frame.Drop. destruct (_ <? _); [done|].
  destruct (_ <? _); [done|]. intros [= <-]. by split.
Qed.

Ltac keep_facts :=
  repeat match goal with
         | H : Frame.Push _ _ = Ok _ |- _ => apply Push_keeps in H as [? ?]
         | H : Frame.Pop _ = Ok (_, _) |- _ =>
             pose proof (Pop_operand _ _ _ H); apply Pop_keeps in H as [? ?]
         | H : Frame.Drop _ _ = Ok _ |- _ => apply Drop_keeps in H as [? ?]
         end.

Lemma step_same_program Invoke (f f' : Frame.t) (h h' : Heap) :
  Frame.step Invoke f h = Frame.Continue f' h' -> same_program f f'.
Proof.
  unfold Frame.step, Frame.guard.
  repeat case_match; intros; simplify_eq; keep_facts;
    repeat match goal with
           | |- same_program _ (Frame.advance _ _) =>
               eapply same_program_trans; [|apply same_program_advance]
           end;
    eauto using same_program_refl, same_program_trans.
  match goal with H : assign _ _ _ = Some _ |- _ =>
    unfold assign in H; destruct (_ && _); [|done]; injection H as <- end.
  constructor; cbn; try done. unfold len. by rewrite length_insert.
Qed.

Lemma Run_invariant Invoke (fuel : nat) :
  forall (f f' : Frame.t) (h h' : Heap),
    wf f -> Frame.Run Invoke fuel f h = Frame.OutOfFuel f' h' ->
    wf f' /\ same_program f f'.
Proof.
  induction fuel as [|fuel IH]; intros f f' h h' Hwf.
  - cbn. intros [= <- _]. split; [done | apply same_program_refl].
  - cbn [Frame.Run]. destruct (Frame.step Invoke f h) as [f1 h1| | |] eqn:Hstep;
      try done.
    intros Hrun. destruct (IH f1 f' h1 h' (wf_step _ _ _ _ _ Hwf Hstep) Hrun)
      as [Hwf' Hsame].
    split; [done|]. eapply same_program_trans; [|exact Hsame].
    by eapply step_same_program.
Qed.

(** X15. While a frame made by [NewFrame] runs, however many iterations of
    the loop have been executed, its depth stays between 0 and the size of
    its stack, which stays the declared maximum depth of the chunk, and
    never passes 31; the code, constants and arguments stay those it was
    made with. *)
Theorem Run_keeps_depth_in_stack Invoke (c : CodeChunk.t) (a : list Value)
    (fuel : nat) (f0 f : Frame.t) (h h' : Heap) :
  wf_chunk c ->
  Frame.NewFrame c a = Some f0 ->
  Frame.Run Invoke fuel f0 h = Frame.OutOfFuel f h' ->
  0 <= Frame.sp f <= CodeChunk.maxStack c /\
  Frame.sp f <= Frame.defaultStackSize - 1 /\
  len (Frame.stack f) = CodeChunk.maxStack c /\
  Frame.code f = c /\
  Frame.consts f = CodeChunk.consts c /\
  Frame.args f = a.
Proof.
  intros [Hlength Hlen Hbytes] Hnew Hrun.
  pose proof (wf_NewFrame c a f0 Hlen Hbytes Hnew) as Hwf0.
  destruct (Run_invariant Invoke fuel f0 f h h' Hwf0 Hrun)
    as [[Hsp Hb _ _ _] [Hsize Hcode Hconsts _ Hargs _ _]].
  unfold Frame.NewFrame in Hnew.
  destruct (Z.ltb_spec (CodeChunk.maxStack c) 0); [done|].
  injection Hnew as <-. cbn in Hsize, Hcode, Hconsts, Hargs.
  assert (Hstack : len (Frame.stack f) = CodeChunk.maxStack c).
  { rewrite Hsize. unfold len. rewrite length_replicate. lia. }
  repeat split; try done; lia.
Qed.

Lemma Run_keeps_depth_in_stack_witness :
  0 <= Frame.sp frame_call <= CodeChunk.maxStack chunk_call /\
  Frame.sp frame_call <= Frame.defaultStackSize - 1 /\
  len (Frame.stack frame_call) = CodeChunk.maxStack chunk_call /\
  Frame.code frame_call = chunk_call /\
  Frame.consts frame_call = CodeChunk.consts chunk_call /\
  Frame.args frame_call = [].
Proof.
  exact (Run_keeps_depth_in_stack rt.invokeNative chunk_call [] 3
           frame_fresh frame_call emptyHeap emptyHeap
           ltac:(wf_chunk_concrete) eq_refl eq_refl).
Defined.

(** X16. The instruction pointer never moves back. A step that lets the
    loop go on adds to [ip] either 1, or 5, or the operand of a branch, and
    an operand is read as a number of [0 .. 2^32 - 1] (Go's [int] being
    64 bits wide): whenever the sum fits a Go integer the new [ip] is the
    old one plus that amount. *)
Theorem ip_never_moves_back Invoke (f f' : Frame.t) (h h' : Heap) :
  wf f ->
  Frame.step Invoke f h = Frame.Continue f' h' ->
  exists d,
    (d = 1 \/ d = 5 \/ Frame.operand f = Ok d) /\
    0 <= d < 2 ^ 32 /\
    Frame.ip f' = GoInt.add (Frame.ip f) d /\
    (Frame.ip f + d <= GoInt.max_int ->
     Frame.ip f' = Frame.ip f + d /\ Frame.ip f <= Frame.ip f').
Proof.
  intros Hwf Hstep.
  assert (Hd : exists d, (d = 1 \/ d = 5 \/ Frame.operand f = Ok d) /\
                         Frame.ip f' = GoInt.add (Frame.ip f) d).
  { revert Hstep. unfold Frame.step, Frame.guard.
    repeat case_match; intros; simplify_eq; keep_facts;
      unfold Frame.advance; cbn [Frame.ip Frame.with_ip Frame.with_stack];
      try (exists 1; split; [by left | congruence]);
      try (exists 5; split; [by right; left | congruence]);
      match goal with
      | H : Frame.operand f = Ok ?off |- context [GoInt.add _ ?off] =>
          exists off; split; [by right; right | congruence]
      end. }
  destruct Hd as (d & Hd & Hip). exists d.
  assert (Hrange : 0 <= d < 2 ^ 32).
  { destruct Hd as [-> | [-> | Hop]]; [lia | lia |].
    by apply (operand_below f d Hwf). }
  split; [done|]. split; [done|]. split; [done|].
  intros Hfit. rewrite Hip. destruct Hwf as [_ _ Hin _ _].
  rewrite add_id by in_range_lia. lia.
Qed.

Lemma ip_never_moves_back_witness :
  exists d,
    (d = 1 \/ d = 5 \/ Frame.operand frame_branch = Ok d) /\
    0 <= d < 2 ^ 32 /\
    Frame.ip (Frame.with_ip (Frame.with_sp frame_branch 0) 16)
    = GoInt.add (Frame.ip frame_branch) d /\
    (Frame.ip frame_branch + d <= GoInt.max_int ->
     Frame.ip (Frame.with_ip (Frame.with_sp frame_branch 0) 16)
     = Frame.ip frame_branch + d /\
     Frame.ip frame_branch
     <= Frame.ip (Frame.with_ip (Frame.with_sp frame_branch 0) 16)).
Proof.
  exact (ip_never_moves_back rt.invokeNative frame_branch
           (Frame.with_ip (Frame.with_sp frame_branch 0) 16)
           emptyHeap emptyHeap wf_frame_branch eq_refl).
Defined.

(** X17. A jump to itself never ends: on a frame whose next instruction is
    [JMP 0], every iteration of the loop leaves the frame and the heap as
    they are, so [Run] is still at the same instruction after any number of
    iterations. *)
Theorem JMP_0_spins Invoke (f : Frame.t) (h : Heap) (fuel : nat) :
  GoInt.in_range (Frame.ip f) ->
  next_opcode f OPJMP ->
  Frame.operand f = Ok 0 ->
  Frame.step Invoke f h = Frame.Continue f h /\
  Frame.Run Invoke fuel f h = Frame.OutOfFuel f h.
Proof.
  intros Hip Hget Hop.
  assert (Hstep : Frame.step Invoke f h = Frame.Continue f h).
  { exec_op Hget. rewrite Hop. cbn [Frame.guard]. unfold Frame.advance.
    rewrite add_id by (by rewrite Z.add_0_r). rewrite Z.add_0_r.
    unfold Frame.with_ip. by rewrite frame_eta. }
  split; [done|].
  induction fuel as [|fuel IH]; [done|]. cbn [Frame.Run]. by rewrite Hstep.
Qed.

Lemma JMP_0_spins_witness :
  Frame.step rt.invokeNative (Frame.mk [] [] [] 0 [] 0 chunk_spin 0 0) emptyHeap
  = Frame.Continue (Frame.mk [] [] [] 0 [] 0 chunk_spin 0 0) emptyHeap /\
  Frame.Run rt.invokeNative 1000 (Frame.mk [] [] [] 0 [] 0 chunk_spin 0 0) emptyHeap
  = Frame.OutOfFuel (Frame.mk [] [] [] 0 [] 0 chunk_spin 0 0) emptyHeap.
Proof.
  apply JMP_0_spins; [split; zcmp | reflexivity | reflexivity].
Defined.

(** ** The natives, on any number of arguments *)

Lemma wrap_mod (a : Z) : GoInt.wrap a mod 2 ^ 64 = a mod 2 ^ 64.
Proof.
  unfold GoInt.wrap. rewrite Zminus_mod_idemp_l. f_equal. lia.
Qed.

Lemma wrap_congr (a b : Z) :
  a mod 2 ^ 64 = b mod 2 ^ 64 -> GoInt.wrap a = GoInt.wrap b.
Proof.
  intros H. unfold GoInt.wrap.
  rewrite <- (Zplus_mod_idemp_l a), <- (Zplus_mod_idemp_l b). by rewrite H.
Qed.

Lemma wrap_add_l (a b : Z) : GoInt.wrap (GoInt.wrap a + b) = GoInt.wrap (a + b).
Proof.
  apply wrap_congr. by rewrite <- Zplus_mod_idemp_l, wrap_mod, Zplus_mod_idemp_l.
Qed.

Lemma wrap_sub_l (a b : Z) : GoInt.wrap (GoInt.wrap a - b) = GoInt.wrap (a - b).
Proof.
  apply wrap_congr. by rewrite <- Zminus_mod_idemp_l, wrap_mod, Zminus_mod_idemp_l.
Qed.

Lemma wrap_mul_l (a b : Z) : GoInt.wrap (GoInt.wrap a * b) = GoInt.wrap (a * b).
Proof.
  apply wrap_congr. by rewrite <- Zmult_mod_idemp_l, wrap_mod, Zmult_mod_idemp_l.
Qed.

Lemma accumulate_add (zs : list Z) :
  forall n,
    rt.accumulate (fun n x => Some (GoInt.add n x)) (GoInt.wrap n) (Int <$> zs)
    = Some (GoInt.wrap (n + sumZ zs)).
Proof.
  induction zs as [|z zs IH]; intros n;
    cbn [fmap list_fmap rt.accumulate rt.unboxInt mbind option_bind
         sumZ prodZ foldr].
  - by rewrite Z.add_0_r.
  - change (GoInt.add (GoInt.wrap n) z) with (GoInt.wrap (GoInt.wrap n + z)).
    rewrite wrap_add_l, IH. do 2 f_equal.
    fold (sumZ zs). fold (prodZ zs). lia.
Qed.

Lemma accumulate_sub (zs : list Z) :
  forall n,
    rt.accumulate (fun n x => Some (GoInt.sub n x)) (GoInt.wrap n) (Int <$> zs)
    = Some (GoInt.wrap (n - sumZ zs)).
Proof.
  induction zs as [|z zs IH]; intros n;
    cbn [fmap list_fmap rt.accumulate rt.unboxInt mbind option_bind
         sumZ prodZ foldr].
  - by rewrite Z.sub_0_r.
  - change (GoInt.sub (GoInt.wrap n) z) with (GoInt.wrap (GoInt.wrap n - z)).
    rewrite wrap_sub_l, IH. do 2 f_equal.
    fold (sumZ zs). fold (prodZ zs). lia.
Qed.

Lemma accumulate_mul (zs : list Z) :
  forall n,
    rt.accumulate (fun n x => Some (GoInt.mul n x)) (GoInt.wrap n) (Int <$> zs)
    = Some (GoInt.wrap (n * prodZ zs)).
Proof.
  induction zs as [|z zs IH]; intros n;
    cbn [fmap list_fmap rt.accumulate rt.unboxInt mbind option_bind
         sumZ prodZ foldr].
  - by rewrite Z.mul_1_r.
  - change (GoInt.mul (GoInt.wrap n) z) with (GoInt.wrap (GoInt.wrap n * z)).
    rewrite wrap_mul_l, IH. do 2 f_equal.
    fold (sumZ zs). fold (prodZ zs). lia.
Qed.

(** X18. On Integers [+] is the sum and [*] the product of all arguments,
    in Go's wrap-around arithmetic: the result is the mathematical sum or
    product reduced to 64 bits, whatever the number of arguments. *)
Theorem plus_mul_fold (zs : list Z) :
  rt.plus (Int <$> zs) = Some (Int (GoInt.wrap (sumZ zs))) /\
  rt.mul (Int <$> zs) = Some (Int (GoInt.wrap (prodZ zs))).
Proof.
  split.
  - unfold rt.plus. change 0 with (GoInt.wrap 0) at 1.
    by rewrite accumulate_add.
  - unfold rt.mul. change 1 with (GoInt.wrap 1) at 1.
    rewrite accumulate_mul. cbn. by rewrite Z.mul_1_l.
Qed.

(** X19. On Integers [-] with one argument negates it, and with more
    arguments subtracts the sum of the others from the first, in Go's
    wrap-around arithmetic; with no argument it is Nil. *)
Theorem sub_fold (a : Z) (zs : list Z) :
  rt.sub [] = Some NIL /\
  rt.sub [Int a] = Some (Int (GoInt.wrap (- a))) /\
  (zs <> [] ->
   rt.sub (Int a :: (Int <$> zs)) = Some (Int (GoInt.wrap (a - sumZ zs)))).
Proof.
  split; [done|]. split; [done|]. intros Hne.
  unfold rt.sub.
  destruct zs as [|z zs]; [done|].
  replace (len (Int a :: (Int <$> z :: zs)) <? 1) with false
    by (symmetry; apply Z.ltb_ge; unfold len; cbn [length fmap list_fmap]; lia).
  replace (len (Int a :: (Int <$> z :: zs)) =? 1) with false
    by (symmetry; apply Z.eqb_neq; unfold len; cbn [length fmap list_fmap]; lia).
  change (index (Int a :: (Int <$> z :: zs)) 0) with (Some (Int a)).
  change (drop 1 (Int a :: (Int <$> z :: zs))) with (Int z :: (Int <$> zs)).
  cbn [mbind option_bind rt.unboxInt rt.accumulate].
  change (GoInt.sub a z) with (GoInt.wrap (a - z)).
  rewrite accumulate_sub. cbn [mbind option_bind sumZ foldr]. fold (sumZ zs).
  do 3 f_equal. lia.
Qed.

Lemma sub_fold_witness :
  rt.sub (Int GoInt.min_int :: (Int <$> [1; 2; 3]))
  = Some (Int (GoInt.wrap (GoInt.min_int - sumZ [1; 2; 3]))).
Proof.
  exact (proj2 (proj2 (sub_fold GoInt.min_int [1; 2; 3]))
           ltac:(discriminate)).
Defined.

Lemma accumulate_None (op : Z -> Z -> option Z) (vs : list Value) :
  (forall n x, is_Some (op n x)) ->
  forall n,
    rt.accumulate op n vs = None <-> Exists (fun v => isInt v = false) vs.
Proof.
  intros Hop. induction vs as [|v vs IH]; intros n.
  - cbn. split; [done|]. by intros ?%Exists_nil.
  - rewrite Exists_cons. cbn [rt.accumulate].
    destruct v; cbn [rt.unboxInt mbind option_bind isInt];
      try (split; [by left | done]).
    destruct (Hop n n0) as [n' ->]. cbn [mbind option_bind]. rewrite IH.
    split; [by right | by intros [?|?]].
Qed.

(** X20. An argument that is not an Integer makes [+], [*] and [-] panic:
    the type assertion on the unboxed value is unchecked, so these natives
    give no value at all exactly when some argument is not an Integer. *)
Theorem arithmetic_panics_on_non_integers (vs : list Value) :
  (rt.plus vs = None <-> Exists (fun v => isInt v = false) vs) /\
  (rt.mul vs = None <-> Exists (fun v => isInt v = false) vs) /\
  (rt.sub vs = None <-> Exists (fun v => isInt v = false) vs).
Proof.
  split; [|split].
  - unfold rt.plus.
    rewrite <- (accumulate_None (fun n x => Some (GoInt.add n x)) vs
                  ltac:(by eexists) 0).
    destruct (rt.accumulate _ _ _); cbn; by split.
  - unfold rt.mul.
    rewrite <- (accumulate_None (fun n x => Some (GoInt.mul n x)) vs
                  ltac:(by eexists) 1).
    destruct (rt.accumulate _ _ _); cbn; by split.
  - destruct vs as [|v vs].
    + split; [done|]. by intros ?%Exists_nil.
    + unfold rt.sub.
      replace (len (v :: vs) <? 1) with false
        by (symmetry; apply Z.ltb_ge; unfold len; cbn [length]; lia).
      change (index (v :: vs) 0) with (Some v).
      change (drop 1 (v :: vs)) with vs.
      rewrite Exists_cons. cbn [mbind option_bind].
      destruct v; cbn [rt.unboxInt mbind option_bind isInt];
        try (split; [by left | done]).
      destruct (Z.eqb_spec (len (Int n :: vs)) 1) as [Hone|Hmore].
      * assert (vs = []) as ->
          by (destruct vs; [done | unfold len in Hone; cbn [length] in Hone; lia]).
        split; [done|]. by intros [?|?%Exists_nil].
      * rewrite <- (accumulate_None (fun n x => Some (GoInt.sub n x)) vs
                      ltac:(by eexists) n).
        destruct (rt.accumulate _ _ _); cbn;
          (split; [try done; by right | try done; by intros [?|?]]).
Qed.

Lemma accumulate_quo (zs : list Z) :
  rt.accumulate GoInt.quo 0 (Int <$> zs)
  = if decide (0 ∈ zs) then None else Some 0.
Proof.
  induction zs as [|z zs IH].
  - cbn. destruct (decide (0 ∈ @nil Z)) as [Hin|_]; [|done].
    by apply elem_of_nil in Hin.
  - cbn [fmap list_fmap rt.accumulate rt.unboxInt mbind option_bind].
    change (GoInt.quo 0 z)
      with (if z =? 0 then None else Some (GoInt.wrap (Z.quot 0 z))).
    destruct (Z.eqb_spec z 0) as [->|Hz].
    + cbn [mbind option_bind].
      destruct (decide (0 ∈ 0 :: zs)) as [_|Hn]; [done|].
      exfalso. apply Hn. apply elem_of_cons. by left.
    + cbn [mbind option_bind]. rewrite Z.quot_0_l by done.
      change (GoInt.wrap 0) with 0. fold (fmap (M:=list) Int zs). rewrite IH.
      destruct (decide (0 ∈ zs)) as [Hin|Hin],
               (decide (0 ∈ z :: zs)) as [Hin'|Hin']; try done.
      * exfalso. apply Hin'. apply elem_of_cons. by right.
      * apply elem_of_cons in Hin' as [?|?]; [lia|done].
Qed.

(** X21. [/] on Integers: a zero among the arguments makes it panic
    (division by zero), and with no zero the result is Integer 0 whatever
    the arguments are, the accumulator being 0 from the start. *)
Theorem div_panics_on_zero (zs : list Z) :
  zs <> [] ->
  (rt.div (Int <$> zs) = None <-> 0 ∈ zs) /\
  (rt.div (Int <$> zs) = Some (Int 0) <-> 0 ∉ zs).
Proof.
  intros Hne. unfold rt.div.
  replace (len (Int <$> zs) <? 1) with false
    by (symmetry; apply Z.ltb_ge; destruct zs; [done|];
        unfold len; cbn [length fmap list_fmap]; lia).
  rewrite accumulate_quo. case_decide; cbn; split; split; done.
Qed.

Lemma div_panics_on_zero_witness :
  (rt.div (Int <$> [4; 0; 2]) = None <-> 0 ∈ [4; 0; 2]) /\
  (rt.div (Int <$> [4; 0; 2]) = Some (Int 0) <-> 0 ∉ [4; 0; 2]).
Proof.
  exact (div_panics_on_zero [4; 0; 2] ltac:(discriminate)).
Defined.



Section EqualsNative.

Variable same : Value -> Value -> option bool.

Lemma equals_from_TRUE (v0 : Value) (rest : list Value) :
  rt.equals_from same v0 rest = Some TRUE
  <-> Forall (fun w => same v0 w = Some true) rest.
Proof.
  induction rest as [|w rest IH]; cbn [rt.equals_from].
  - split; [by constructor | done].
  - rewrite Forall_cons. destruct (same v0 w) as [[|]|]; cbn.
    + rewrite IH. split; [by split | by intros [_ ?]].
    + split; [done | by intros [[=] _]].
    + split; [done | by intros [[=] _]].
Qed.

Lemma equals_from_app (v0 : Value) (equal rest : list Value) :
  Forall (fun w => same v0 w = Some true) equal ->
  rt.equals_from same v0 (equal ++ rest) = rt.equals_from same v0 rest.
Proof.
  induction 1 as [|w equal Hw _ IH]; [done|].
  cbn [app rt.equals_from]. rewrite Hw. exact IH.
Qed.

(** X23. [=] compares every further argument with the first one, in order,
    and stops at the first comparison that does not say equal. It is Nil
    for no argument and TRUE for a single argument, without any comparison;
    with more arguments it is TRUE exactly when every comparison with the
    first argument says equal; it is FALSE as soon as, after any number of
    arguments equal to the first, one differs from it, whatever follows;
    and it panics when that comparison panics. *)
Theorem equals_compares_with_first (v0 : Value) (rest : list Value) :
  rt.equals same [] = Some NIL /\
  rt.equals same [v0] = Some TRUE /\
  (rt.equals same (v0 :: rest) = Some TRUE
   <-> Forall (fun w => same v0 w = Some true) rest) /\
  (forall w more, same v0 w = Some false ->
     rt.equals same (v0 :: w :: more) = Some FALSE) /\
  (forall equal w more,
     Forall (fun u => same v0 u = Some true) equal ->
     same v0 w = Some false ->
     rt.equals same (v0 :: equal ++ w :: more) = Some FALSE) /\
  (forall equal w more,
     Forall (fun u => same v0 u = Some true) equal ->
     same v0 w = None ->
     rt.equals same (v0 :: equal ++ w :: more) = None).
Proof.
  assert (Hcons : forall vs, rt.equals same (v0 :: vs)
                             = rt.equals_from same v0 vs).
  { intros vs. unfold rt.equals. cbv zeta.
    replace (len (v0 :: vs) <? 1) with false
      by (symmetry; apply Z.ltb_ge; unfold len; cbn [length]; lia).
    reflexivity. }
  split; [done|]. split; [by rewrite Hcons|]. split; [|split; [|split]].
  - rewrite Hcons. apply equals_from_TRUE.
  - intros w more Hw. rewrite Hcons. cbn [rt.equals_from]. by rewrite Hw.
  - intros equal w more Heq Hw. rewrite Hcons, equals_from_app by done.
    cbn [rt.equals_from]. by rewrite Hw.
  - intros equal w more Heq Hw. rewrite Hcons, equals_from_app by done.
    cbn [rt.equals_from]. by rewrite Hw.
Qed.

End EqualsNative.

Lemma equals_compares_with_first_witness :
  rt.equals (fun a b => Some (isInt a && isInt b)) [Int 1; Int 1; NIL; Int 1]
  = Some FALSE.
Proof.
  exact (proj1 (proj2 (proj2 (proj2 (proj2
           (equals_compares_with_first (fun a b => Some (isInt a && isInt b))
              (Int 1) [])))))
           [Int 1] NIL [Int 1] ltac:(by repeat constructor) eq_refl).
Defined.

Section RegistryFacts.

Variable Namespace : Type.
Variable Name : Namespace -> string.

(** X24. The registry of namespaces: a namespace is found under its own
    name once registered, a later registration under the same name replaces
    it, the other names are not affected, [RegisterNS] hands back the
    namespace it was given, and a name never registered finds nothing. *)
Theorem NS_after_RegisterNS (reg : gmap string Namespace) (ns ns' : Namespace)
    (name : string) :
  rt.NS Namespace (rt.RegisterNS Namespace Name reg ns).1 (Name ns) = Some ns /\
  (rt.RegisterNS Namespace Name reg ns).2 = ns /\
  (name <> Name ns ->
   rt.NS Namespace (rt.RegisterNS Namespace Name reg ns).1 name
   = rt.NS Namespace reg name) /\
  (Name ns' = Name ns ->
   rt.NS Namespace
     (rt.RegisterNS Namespace Name
        (rt.RegisterNS Namespace Name reg ns).1 ns').1 (Name ns)
   = Some ns') /\
  rt.NS Namespace ∅ name = None.
Proof.
  unfold rt.NS, rt.RegisterNS. cbn [fst snd].
  split; [apply lookup_insert_eq|]. split; [done|]. split; [|split].
  - intros Hne. by apply lookup_insert_ne.
  - intros ->. apply lookup_insert_eq.
  - apply lookup_empty.
Qed.

End RegistryFacts.

Lemma NS_after_RegisterNS_witness :
  rt.NS string (rt.RegisterNS string id ∅ "lang"%string).1 "user"%string
  = rt.NS string ∅ "user"%string.
Proof.
  exact (proj1 (proj2 (proj2
           (NS_after_RegisterNS string id ∅ "lang"%string "lang"%string
              "user"%string))) ltac:(discriminate)).
Defined.

(** ** The listing of [Debug] *)

Lemma code_assemble (prog : list Instr) :
  forall c,
    CodeChunk.code (assemble c prog)
    = CodeChunk.code c ++ concat (encode_instr <$> prog).
Proof.
  induction prog as [|i prog IH]; intros c; cbn [assemble foldl].
  - cbn. by rewrite app_nil_r.
  - fold (assemble (append_instr c i) prog). rewrite IH.
    cbn [fmap list_fmap concat]. rewrite app_assoc. f_equal.
    destruct i; cbn; by rewrite <- ?app_assoc.
Qed.

Lemma opcode_value_byte (op : Opcode) : 0 <= opcode_value op < 256.
Proof. destruct op; cbn; lia. Qed.

Lemma wf_chunk_assemble (prog : list Instr) :
  forall c,
    wf_chunk c ->
    len (CodeChunk.code (assemble c prog)) <= GoInt.max_int ->
    wf_chunk (assemble c prog).
Proof.
  induction prog as [|i prog IH]; intros c Hwf Hfit; [done|].
  cbn [assemble foldl] in *. fold (assemble (append_instr c i) prog) in *.
  apply IH; [|done]. destruct Hwf as [Hlength Hlen Hbytes].
  rewrite code_assemble in Hfit. rewrite len_app in Hfit.
  pose proof (len_nonneg (concat (encode_instr <$> prog))).
  constructor.
  - destruct i; reflexivity.
  - lia.
  - destruct i; cbn; repeat (apply Forall_app; split); try done;
      try apply PutUint32_bytes; repeat constructor; apply opcode_value_byte.
Qed.

Lemma DebugCode_at (prog : list Instr) :
  forall (c : CodeChunk.t) (pre : list Z) (fuel : nat),
    wf_chunk c ->
    len (CodeChunk.code c) + 5 <= GoInt.max_int ->
    CodeChunk.code c = pre ++ concat (encode_instr <$> prog) ->
    Forall instr_ok prog ->
    (length prog <= fuel)%nat ->
    CodeChunk.DebugCode fuel c (len pre) = Some (listing (len pre) prog).
Proof.
  induction prog as [|i prog IH]; intros c pre fuel Hwf Hfit Hcode Hok Hfuel.
  - cbn in Hcode. rewrite app_nil_r in Hcode.
    destruct fuel; cbn [CodeChunk.DebugCode]; rewrite Hcode, Z.ltb_irrefl; done.
  - destruct fuel as [|fuel]; [cbn in Hfuel; lia|].
    apply Forall_cons in Hok as [Hi Hok].
    pose proof Hwf as [Hlength Hlen Hbytes].
    pose proof (len_nonneg pre) as Hpre.
    cbn [fmap list_fmap concat] in Hcode.
    assert (Hhead : exists b tail, encode_instr i = b :: tail)
      by (destruct i; by eexists _, _).
    destruct Hhead as (b & tail & Hb).
    assert (Hlt : len pre < len (CodeChunk.code c)).
    { rewrite Hcode, Hb, !len_app. unfold len at 3. cbn [length].
      pose proof (len_nonneg (tail ++ concat (encode_instr <$> prog))).
      unfold len in *. cbn [app length]. lia. }
    assert (Hget : CodeChunk.Get c (len pre) = Ok b).
    { unfold CodeChunk.Get. rewrite Hlength.
      destruct (Z.geb_spec (len pre) (len (CodeChunk.code c))); [lia|].
      rewrite Hcode, Hb.
      replace (len pre) with (len pre + 0) at 1 by lia.
      by rewrite index_app_r. }
    cbn [CodeChunk.DebugCode].
    destruct (Z.ltb_spec (len pre) (len (CodeChunk.code c))); [|lia].
    rewrite Hget.
    destruct i as [op|op n]; cbn [encode_instr] in Hb; injection Hb as <- <-;
      cbn [instr_ok] in Hi.
    + rewrite Hi. rewrite add_id by in_range_lia.
      replace (len pre + 1) with (len (pre ++ [opcode_value op]))
        by (rewrite len_app; reflexivity).
      rewrite (IH c (pre ++ [opcode_value op]) fuel); try done.
      * cbn [mbind option_bind listing]. by rewrite len_app.
      * rewrite Hcode. cbn [encode_instr]. by rewrite <- app_assoc.
      * cbn in Hfuel. lia.
    + destruct Hi as [Hwide Hn]. rewrite Hwide.
      rewrite !add_id by in_range_lia.
      assert (Hlen5 : len (pre ++ opcode_value op :: CodeChunk.PutUint32 n)
                      = len pre + 5)
        by (rewrite len_app; reflexivity).
      assert (Hget32 : CodeChunk.Get32 c (len pre + 1) = Ok n).
      { rewrite Get32_in_bounds; [|done|lia|].
        - rewrite Hcode. cbn [encode_instr].
          replace (Z.to_nat (len pre + 1)) with (length (pre ++ [opcode_value op]))
            by (rewrite length_app; unfold len; cbn [length]; lia).
          replace (pre ++ (opcode_value op :: CodeChunk.PutUint32 n)
                       ++ concat (encode_instr <$> prog))
            with ((pre ++ [opcode_value op])
                    ++ CodeChunk.PutUint32 n ++ concat (encode_instr <$> prog))
            by (by rewrite <- app_assoc).
          rewrite drop_app_length, Uint32_PutUint32.
          by rewrite Z.mod_small.
        - rewrite Hcode. cbn [encode_instr]. rewrite !len_app.
          pose proof (len_nonneg (concat (encode_instr <$> prog))).
          change (len (opcode_value op :: CodeChunk.PutUint32 n)) with 5. lia. }
      rewrite Hget32. rewrite <- Hlen5.
      rewrite (IH c (pre ++ opcode_value op :: CodeChunk.PutUint32 n) fuel);
        try done.
      * cbn [mbind option_bind listing]. by rewrite Hlen5.
      * rewrite Hcode. cbn [encode_instr]. by rewrite <- app_assoc.
      * cbn in Hfuel. lia.
Qed.

(** X25. Assembling and listing are inverse: for a program whose wide
    instructions carry an operand of [0 .. 2^32 - 1], the chunk built by
    appending its opcodes and operands one after the other is listed by
    [Debug] as that very program, each instruction at its address with its
    name and its operand, as soon as the loop is given as many iterations
    as the program has instructions. *)
Theorem Debug_lists_program (consts : list Value) (prog : list Instr)
    (fuel : nat) :
  Forall instr_ok prog ->
  len (CodeChunk.code (assemble (CodeChunk.NewCodeChunk consts) prog)) + 5
  <= GoInt.max_int ->
  (length prog <= fuel)%nat ->
  CodeChunk.DebugCode fuel (assemble (CodeChunk.NewCodeChunk consts) prog) 0
  = Some (listing 0 prog).
Proof.
  intros Hok Hfit Hfuel.
  apply (DebugCode_at prog _ [] fuel); try done.
  - apply wf_chunk_assemble; [apply wf_chunk_NewCodeChunk | lia].
  - by rewrite code_assemble.
Qed.

Lemma Debug_lists_program_witness :
  CodeChunk.DebugCode 5
    (assemble (CodeChunk.NewCodeChunk [NativeFn "+"; Int 1; Int 2])
       [Wide OPLDC 0; Wide OPLDC 1; Wide OPLDC 2; Wide OPINV 2; Plain OPRET]) 0
  = Some [(0, "LDC"%string, Some 0); (5, "LDC"%string, Some 1);
          (10, "LDC"%string, Some 2); (15, "INV"%string, Some 2);
          (20, "RET"%string, None)].
Proof.
  apply (Debug_lists_program [NativeFn "+"; Int 1; Int 2]
           [Wide OPLDC 0; Wide OPLDC 1; Wide OPLDC 2; Wide OPINV 2; Plain OPRET] 5).
  - repeat constructor; zcmp.
  - zcmp.
  - cbn [length]. lia.
Defined.

(** X26. [Run] and [Debug] agree on the size of the instructions. A step
    over an instruction other than a branch or a jump moves the instruction
    pointer by 5 when [Debug] prints the opcode with an operand and by 1
    when it does not, so the addresses that [Debug] lists are the ones that
    [Run] visits in straight-line code. *)
Theorem Run_steps_as_Debug_lists Invoke (f f' : Frame.t) (h h' : Heap)
    (op : Opcode) :
  wf f ->
  next_opcode f op ->
  op <> OPBRT -> op <> OPBRF -> op <> OPJMP ->
  Frame.step Invoke f h = Frame.Continue f' h' ->
  Frame.ip f' = Frame.ip f + (if CodeChunk.wide (opcode_value op) then 5 else 1).
Proof.
  intros Hwf Hget Hbrt Hbrf Hjmp.
  pose proof (Get_Ok_advance f _ Hwf Hget) as H1.
  destruct op; try done; exec_op Hget; unfold Frame.guard;
    repeat case_match; intros; simplify_eq; keep_facts;
    unfold Frame.advance; cbn [Frame.ip Frame.with_ip Frame.with_stack];
    change (CodeChunk.wide (opcode_value _)) with true ||
    change (CodeChunk.wide (opcode_value _)) with false;
    cbv iota;
    repeat match goal with
           | H : Frame.ip _ = Frame.ip _ |- _ => rewrite H
           end;
    try (exact H1);
    match goal with
    | H : Frame.operand _ = Ok _, E : Frame.operand _ = Frame.operand f |- _ =>
        rewrite E in H; by apply (operand_advance f _ Hwf H)
    | H : Frame.operand f = Ok _ |- _ => by apply (operand_advance f _ Hwf H)
    end.
Qed.

Lemma Run_steps_as_Debug_lists_witness :
  Frame.ip (Frame.with_ip
              (Frame.with_sp
                 (Frame.with_stack frame_fresh [NativeFn "+"; NIL; NIL]) 1) 5)
  = Frame.ip frame_fresh + (if CodeChunk.wide (opcode_value OPLDC) then 5 else 1).
Proof.
  exact (Run_steps_as_Debug_lists rt.invokeNative frame_fresh _ emptyHeap
           emptyHeap OPLDC wf_frame_fresh eq_refl
           ltac:(discriminate) ltac:(discriminate) ltac:(discriminate) eq_refl).
Defined.


(** ** Negative branch offsets *)

(** C5: the code at a branch whose 32-bit offset is negative. [Append32]
    stores the offset -5 as the four bytes of its two's complement, and
    [Get32] reads them back without a sign, as 4294967291. At address 5
    [JMP -5] and [BRF -5] on a falsy value therefore set the instruction
    pointer to 5 + 4294967291 = 4294967296, where adding the offset to the
    address of the opcode gives 0. *)
Theorem negative_offset_jumps_forward :
  CodeChunk.PutUint32 (-5) = [251; 255; 255; 255] /\
  (forall Invoke,
     runChunk Invoke 5 chunk_jump_back [] emptyHeap
     = Frame.OutOfFuel frame_jump_back emptyHeap) /\
  next_opcode frame_jump_back OPJMP /\
  Frame.operand frame_jump_back = Ok 4294967291 /\
  Frame.ip frame_jump_back + (-5) = 0 /\
  (forall Invoke h,
     Frame.step Invoke frame_jump_back h
     = Frame.Continue (Frame.with_ip frame_jump_back 4294967296) h) /\
  (forall Invoke,
     runChunk Invoke 1 chunk_branch_back [] emptyHeap
     = Frame.OutOfFuel frame_branch_back emptyHeap) /\
  next_opcode frame_branch_back OPBRF /\
  Frame.operand frame_branch_back = Ok 4294967291 /\
  IsTruthy FALSE = false /\
  Frame.ip frame_branch_back + (-5) = 0 /\
  (forall Invoke h,
     Frame.step Invoke frame_branch_back h
     = Frame.Continue
         (Frame.with_ip (Frame.with_sp frame_branch_back 0) 4294967296) h).
Proof.
  repeat (split; [reflexivity|]). reflexivity.
Qed.
